(** * Verification of the manimlib animation engine

    A shallow embedding of the animation classes of [manimlib/animation]
    and of the timing curves of [manimlib/utils/rate_functions.py].

    Conventions.  Python floats are idealised as real numbers ([R]);
    Python objects that are mutated in place are modelled by explicit state
    passing (a store of objects where aliasing matters); a Python exception
    is a value of an error type.  Code of the repository that the modelled
    functions call but that is not part of the sources at hand
    ([manimlib.utils.bezier], [manimlib.utils.simple_functions],
    [manimlib.mobject.mobject], [manimlib.animation.animation]) is either a
    [Variable] of a [Section] or a definition marked as modelled. *)

From Stdlib Require Import Reals Lra Lia ZArith List String.
From stdpp Require Import base option list strings gmap.

Open Scope R_scope.

(** ** Python values *)

Module Python.

(** [int(x)] on a float: truncation towards zero. *)
Definition py_int (x : R) : Z :=
  if Rle_dec 0 x then Zfloor x else Zceil x.

(** [x % 1] on a float: the result lies in [0,1). *)
Definition py_mod1 (x : R) : R := x - IZR (Zfloor x).

(** [l[i]]: a negative index counts from the end, and an index outside
    [-len(l), len(l)) raises IndexError ([None]). *)
Definition getitem {A : Type} (l : list A) (i : Z) : option A :=
  let n := Z.of_nat (length l) in
  if (0 <=? i)%Z then l !! Z.to_nat i
  else if (- n <=? i)%Z then l !! Z.to_nat (n + i)
  else None.

(** [l[:i]]: a negative bound counts from the end; never raises. *)
Definition slice_to {A : Type} (l : list A) (i : Z) : list A :=
  if (0 <=? i)%Z then take (Z.to_nat i) l
  else take (Z.to_nat (Z.of_nat (length l) + i)) l.

(** A raised exception, with its message. *)
Inductive exn : Type := Exception (msg : string).

End Python.

(** ** manimlib/utils/simple_functions.py and manimlib/utils/bezier.py *)

Module SimpleFunctions.

(** Modelled from the spec: [clip] of [manimlib.utils.simple_functions] is
    not among the sources.  The spec speaks of values "clipped to [0,1]"
    and of an index "clamped to the valid range": below the lower bound the
    lower bound is returned, above the upper bound the upper bound, and the
    value itself otherwise.  The lower bound is tested first. *)
Definition clip (a min_a max_a : R) : R :=
  if Rlt_dec a min_a then min_a
  else if Rlt_dec max_a a then max_a
  else a.

(** The same function on Python integers. *)
Definition clip_int (a min_a max_a : Z) : Z :=
  if (a <? min_a)%Z then min_a
  else if (max_a <? a)%Z then max_a
  else a.

End SimpleFunctions.

Module Bezier.
Import Python.

(** Modelled from the spec: [interpolate] of [manimlib.utils.bezier] is not
    among the sources.  Spec 4.3: "linear interpolation,
    p(alpha) = (1-alpha) * start + alpha * end". *)
Definition interpolate (start end_ alpha : R) : R :=
  (1 - alpha) * start + alpha * end_.

(** Modelled from the spec: [integer_interpolate] of [manimlib.utils.bezier]
    is not among the sources.  It is the "integer-interpolated switch" of
    spec 4.6: the interval [0,1] is cut into [end_ - start] equal pieces and
    the result is the index of the piece [alpha] falls in, with the progress
    inside that piece.  At [alpha >= 1] the last piece is reported as
    complete, at [alpha <= 0] the first piece as not begun. *)
Definition integer_interpolate (start end_ : Z) (alpha : R) : Z * R :=
  if Rle_dec 1 alpha then ((end_ - 1)%Z, 1)
  else if Rle_dec alpha 0 then (start, 0)
  else (py_int (interpolate (IZR start) (IZR end_) alpha),
        py_mod1 (IZR (end_ - start) * alpha)).

(** Binomial coefficients, by Pascal's rule. *)
Fixpoint choose (n k : nat) : nat :=
  match n, k with
  | _, O => 1
  | O, S _ => 0
  | S n', S k' => (choose n' k' + choose n' k)%nat
  end.

(** Modelled from the spec: [bezier] of [manimlib.utils.bezier] is not among
    the sources.  [bezier points] is the Bezier curve with the given control
    values, in Bernstein form: the sum over [k] of
    [(1-t)^(n-k) * t^k * choose n k * points[k]] with
    [n = len(points) - 1].  The comment in [smooth] ("Equivalent to
    bezier([0, 0, 0, 1, 1, 1])") is checked against this definition in
    [RateFunctions.smooth_is_bezier]. *)
Fixpoint bezier_terms (n k : nat) (points : list R) (t : R) : R :=
  match points with
  | [] => 0
  | p :: ps =>
      (1 - t) ^ (n - k) * t ^ k * INR (choose n k) * p
      + bezier_terms n (S k) ps t
  end.

Definition bezier (points : list R) (t : R) : R :=
  bezier_terms (length points - 1) 0 points t.

Lemma interpolate_0 (a b : R) : interpolate a b 0 = a.
Proof. unfold interpolate. lra. Qed.

Lemma interpolate_1 (a b : R) : interpolate a b 1 = b.
Proof. unfold interpolate. lra. Qed.

Lemma integer_interpolate_first_half (alpha : R) :
  0 <= alpha < 0.5 -> integer_interpolate 0 2 alpha = (0%Z, 2 * alpha).
Proof.
  intros [H0 H1]. unfold integer_interpolate.
  destruct (Rle_dec 1 alpha) as [|_]; [lra|].
  destruct (Rle_dec alpha 0) as [Hle|Hgt].
  - f_equal. lra.
  - assert (Hf : Zfloor (2 * alpha) = 0%Z) by (apply Zfloor_eq; lra).
    unfold py_int, py_mod1, interpolate. change (2 - 0)%Z with 2%Z.
    replace ((1 - alpha) * 0 + alpha * 2) with (2 * alpha) by lra.
    destruct (Rle_dec 0 (2 * alpha)) as [_|]; [|lra].
    rewrite Hf. f_equal. lra.
Qed.

Lemma integer_interpolate_second_half (alpha : R) :
  0.5 <= alpha <= 1 -> integer_interpolate 0 2 alpha = (1%Z, 2 * alpha - 1).
Proof.
  intros [H0 H1]. unfold integer_interpolate.
  destruct (Rle_dec 1 alpha) as [Hge|Hlt].
  - change (2 - 1)%Z with 1%Z. f_equal. lra.
  - destruct (Rle_dec alpha 0) as [|_]; [lra|].
    assert (Hf : Zfloor (2 * alpha) = 1%Z) by (apply Zfloor_eq; lra).
    unfold py_int, py_mod1, interpolate. change (2 - 0)%Z with 2%Z.
    replace ((1 - alpha) * 0 + alpha * 2) with (2 * alpha) by lra.
    destruct (Rle_dec 0 (2 * alpha)) as [_|]; [|lra].
    rewrite Hf. f_equal.
Qed.

End Bezier.

(** ** manimlib/utils/rate_functions.py *)

Module RateFunctions.
Import SimpleFunctions Bezier.

Definition linear (t : R) : R := t.

Definition smooth (t : R) : R :=
  let s := 1 - t in
  (t ^ 3) * (10 * s * s + 5 * s * t + t * t).

Definition rush_into (t : R) : R := 2 * smooth (0.5 * t).

Definition rush_from (t : R) : R := 2 * smooth (0.5 * (t + 1)) - 1.

Definition slow_into (t : R) : R := sqrt (1 - (1 - t) * (1 - t)).

Definition double_smooth (t : R) : R :=
  if Rlt_dec t 0.5 then 0.5 * smooth (2 * t)
  else 0.5 * (1 + smooth (2 * t - 1)).

Definition there_and_back (t : R) : R :=
  let new_t := if Rlt_dec t 0.5 then 2 * t else 2 * (1 - t) in
  smooth new_t.

Definition there_and_back_with_pause (t pause_ratio : R) : R :=
  let a := 2 / (1 - pause_ratio) in
  if Rlt_dec t (0.5 - pause_ratio / 2) then smooth (a * t)
  else if Rlt_dec t (0.5 + pause_ratio / 2) then 1
  else smooth (a - a * t).

Definition running_start (t pull_factor : R) : R :=
  bezier [0; 0; pull_factor; pull_factor; 1; 1; 1] t.

Definition overshoot (t pull_factor : R) : R :=
  bezier [0; 0; pull_factor; pull_factor; 1; 1] t.

Definition not_quite_there (func : R -> R) (proportion : R) : R -> R :=
  fun t => proportion * func t.

Definition wiggle (t wiggles : R) : R :=
  there_and_back t * sin (wiggles * PI * t).

Definition squish_rate_func (func : R -> R) (a b : R) : R -> R :=
  fun t =>
    if Req_dec_T a b then a
    else if Rlt_dec t a then func 0
    else if Rlt_dec b t then func 1
    else func ((t - a) / (b - a)).

Definition lingering (t : R) : R :=
  squish_rate_func (fun t => t) 0 0.8 t.

Definition exponential_decay (t half_life : R) : R :=
  1 - exp (- t / half_life).

(** Default values of the keyword arguments. *)
Definition default_pause_ratio : R := 1 / 3.
Definition default_running_start_pull_factor : R := -0.5.
Definition default_overshoot_pull_factor : R := 1.5.
Definition default_wiggles : R := 2.
Definition default_half_life : R := 0.1.

(** The curves named by the property over the curve library, each at the
    default value of its keyword arguments. *)
Inductive curve : Type :=
  | Linear | Smooth | RushInto | RushFrom | SlowInto | DoubleSmooth
  | ThereAndBack | RunningStart | Lingering | Wiggle | ExponentialDecay.

Definition rate (c : curve) : R -> R :=
  match c with
  | Linear => linear
  | Smooth => smooth
  | RushInto => rush_into
  | RushFrom => rush_from
  | SlowInto => slow_into
  | DoubleSmooth => double_smooth
  | ThereAndBack => there_and_back
  | RunningStart => fun t => running_start t default_running_start_pull_factor
  | Lingering => lingering
  | Wiggle => fun t => wiggle t default_wiggles
  | ExponentialDecay => fun t => exponential_decay t default_half_life
  end.

(** The curves whose own text says that they do not end at 1: the docstring
    of [there_and_back] ("goes from 0 to 1 and back to 0", "returns to 0")
    and the comment of [exponential_decay] ("the cut-off error at the
    end").  [wiggle] has neither docstring nor comment. *)
Definition documented_exception (c : curve) : bool :=
  match c with
  | ThereAndBack | ExponentialDecay => true
  | _ => false
  end.

(** The curves that return to 0 at the end of the timeline. *)
Definition returns_to_zero (c : curve) : bool :=
  match c with
  | ThereAndBack | Wiggle => true
  | _ => false
  end.

Ltac if_lra :=
  repeat match goal with
  | |- context [Rlt_dec ?a ?b] => destruct (Rlt_dec a b); try lra
  | |- context [Rle_dec ?a ?b] => destruct (Rle_dec a b); try lra
  | |- context [Req_dec_T ?a ?b] => destruct (Req_dec_T a b); try lra
  end.

Lemma smooth_0 : smooth 0 = 0.
Proof. unfold smooth. simpl. lra. Qed.

Lemma smooth_1 : smooth 1 = 1.
Proof. unfold smooth. simpl. lra. Qed.

Lemma smooth_half : smooth 0.5 = 0.5.
Proof. unfold smooth. simpl. lra. Qed.

(** The comment in [smooth]: it is the Bezier curve of 0,0,0,1,1,1. *)
Lemma smooth_is_bezier (t : R) : smooth t = bezier [0; 0; 0; 1; 1; 1] t.
Proof. unfold smooth, bezier. simpl. lra. Qed.

Lemma there_and_back_0 : there_and_back 0 = 0.
Proof.
  unfold there_and_back. if_lra.
  replace (2 * 0) with 0 by lra. apply smooth_0.
Qed.

Lemma there_and_back_1 : there_and_back 1 = 0.
Proof.
  unfold there_and_back. if_lra.
  replace (2 * (1 - 1)) with 0 by lra. apply smooth_0.
Qed.

Lemma wiggle_0 : wiggle 0 default_wiggles = 0.
Proof. unfold wiggle. rewrite there_and_back_0. lra. Qed.

Lemma wiggle_1 : wiggle 1 default_wiggles = 0.
Proof. unfold wiggle. rewrite there_and_back_1. lra. Qed.

Lemma exponential_decay_0 : exponential_decay 0 default_half_life = 0.
Proof.
  unfold exponential_decay, default_half_life.
  replace (- 0 / 0.1) with 0 by lra. rewrite exp_0. lra.
Qed.

Lemma exponential_decay_1 :
  exponential_decay 1 default_half_life = 1 - exp (-10)
  /\ exponential_decay 1 default_half_life < 1.
Proof.
  unfold exponential_decay, default_half_life.
  assert (E : - (1) / 0.1 = -10) by lra. rewrite E.
  split; [reflexivity|]. pose proof (exp_pos (-10)). lra.
Qed.

Lemma rate_0 (c : curve) : rate c 0 = 0.
Proof.
  destruct c; simpl.
  - reflexivity.
  - apply smooth_0.
  - unfold rush_into. replace (0.5 * 0) with 0 by lra. rewrite smooth_0. lra.
  - unfold rush_from. replace (0.5 * (0 + 1)) with 0.5 by lra.
    rewrite smooth_half. lra.
  - unfold slow_into. replace (1 - (1 - 0) * (1 - 0)) with 0 by lra.
    apply sqrt_0.
  - unfold double_smooth. if_lra. replace (2 * 0) with 0 by lra.
    rewrite smooth_0. lra.
  - apply there_and_back_0.
  - unfold running_start, bezier. simpl. lra.
  - unfold lingering, squish_rate_func. if_lra.
  - apply wiggle_0.
  - apply exponential_decay_0.
Qed.

Lemma rate_1 (c : curve) :
  documented_exception c = false -> returns_to_zero c = false ->
  rate c 1 = 1.
Proof.
  destruct c; simpl; try discriminate; intros _ _.
  - reflexivity.
  - apply smooth_1.
  - unfold rush_into. replace (0.5 * 1) with 0.5 by lra.
    rewrite smooth_half. lra.
  - unfold rush_from. replace (0.5 * (1 + 1)) with 1 by lra.
    rewrite smooth_1. lra.
  - unfold slow_into. replace (1 - (1 - 1) * (1 - 1)) with 1 by lra.
    apply sqrt_1.
  - unfold double_smooth. if_lra. replace (2 * 1 - 1) with 1 by lra.
    rewrite smooth_1. lra.
  - unfold running_start, bezier. simpl. lra.
  - unfold lingering, squish_rate_func. if_lra.
Qed.

(** The remaining curves of the module, at their default arguments:
    [overshoot] leaves [0,1] in between but has both endpoints, while
    [there_and_back_with_pause] returns to 0 and [not_quite_there] stops at
    its proportion. *)
Lemma other_curves_endpoints :
  overshoot 0 default_overshoot_pull_factor = 0
  /\ overshoot 1 default_overshoot_pull_factor = 1
  /\ there_and_back_with_pause 0 default_pause_ratio = 0
  /\ there_and_back_with_pause 1 default_pause_ratio = 0
  /\ not_quite_there smooth 0.7 0 = 0
  /\ not_quite_there smooth 0.7 1 = 0.7.
Proof.
  unfold overshoot, bezier, there_and_back_with_pause, not_quite_there,
    default_pause_ratio.
  repeat split.
  - simpl. lra.
  - simpl. lra.
  - if_lra. replace (2 / (1 - 1 / 3) * 0) with 0 by lra. apply smooth_0.
  - if_lra.
    replace (2 / (1 - 1 / 3) - 2 / (1 - 1 / 3) * 1) with 0 by lra.
    apply smooth_0.
  - rewrite smooth_0. lra.
  - rewrite smooth_1. lra.
Qed.

(** C1 (as stated, refuted).  [wiggle] is one of the listed curves, nothing
    in its source documents it as an exception, it starts at 0 but it ends
    at 0 and not at 1: the endpoint property does not hold for every listed
    curve outside the documented exceptions. *)
Lemma rate_endpoints_fail_for_wiggle :
  documented_exception Wiggle = false
  /\ rate Wiggle 0 = 0
  /\ ~ (forall c, documented_exception c = false ->
                  rate c 0 = 0 /\ rate c 1 = 1).
Proof.
  split; [reflexivity|]. split; [apply wiggle_0|].
  intros H. destruct (H Wiggle eq_refl) as [_ H1].
  simpl in H1. rewrite wiggle_1 in H1. lra.
Qed.

(** C1 (amended).  Every listed curve starts at 0.  It ends at 1 unless it
    is [there_and_back] or [wiggle], which end at 0, or
    [exponential_decay], which ends at [1 - exp (-10)], short of 1. *)
Theorem rate_endpoints (c : curve) :
  rate c 0 = 0
  /\ (returns_to_zero c = true -> rate c 1 = 0)
  /\ (c = ExponentialDecay -> rate c 1 = 1 - exp (-10) /\ rate c 1 < 1)
  /\ (returns_to_zero c = false -> c <> ExponentialDecay -> rate c 1 = 1).
Proof.
  split; [apply rate_0|]. split; [|split].
  - destruct c; simpl; try discriminate; intros _.
    + apply there_and_back_1.
    + apply wiggle_1.
  - intros ->. apply exponential_decay_1.
  - intros Hz Hne. apply rate_1; [|assumption].
    destruct c; simpl in *; try reflexivity; try discriminate.
    contradiction.
Qed.

(** *** Shape of the curves *)

Definition parabola (t : R) : R := t * (1 - t).

(** The increase of [smooth] between two points, by the five-point closed
    Newton-Cotes rule, which is exact for its derivative
    [30 * t^2 * (1 - t)^2]. *)
Lemma smooth_increase (a b : R) :
  smooth b - smooth a
  = (b - a) / 3
    * (7 * (parabola a) ^ 2 + 32 * (parabola ((3 * a + b) / 4)) ^ 2
       + 12 * (parabola ((a + b) / 2)) ^ 2
       + 32 * (parabola ((a + 3 * b) / 4)) ^ 2 + 7 * (parabola b) ^ 2).
Proof. unfold smooth, parabola. simpl. field. Qed.

Lemma smooth_le (a b : R) : a <= b -> smooth a <= smooth b.
Proof.
  intros H. pose proof (smooth_increase a b) as E.
  pose proof (pow2_ge_0 (parabola a)).
  pose proof (pow2_ge_0 (parabola b)).
  pose proof (pow2_ge_0 (parabola ((3 * a + b) / 4))).
  pose proof (pow2_ge_0 (parabola ((a + b) / 2))).
  pose proof (pow2_ge_0 (parabola ((a + 3 * b) / 4))).
  nra.
Qed.

Lemma smooth_unit (t : R) : 0 <= t <= 1 -> 0 <= smooth t <= 1.
Proof.
  intros [H0 H1].
  pose proof (smooth_le 0 t H0) as L0. pose proof (smooth_le t 1 H1) as L1.
  rewrite smooth_0 in L0. rewrite smooth_1 in L1. lra.
Qed.

(** X1.  [smooth] never decreases, on the whole line, and it keeps the
    unit interval inside the unit interval. *)
Theorem smooth_nondecreasing (a b : R) :
  a <= b ->
  smooth a <= smooth b
  /\ (0 <= a -> b <= 1 -> 0 <= smooth a /\ smooth b <= 1).
Proof.
  intros H. split; [apply smooth_le, H|]. intros Ha Hb. split.
  - apply (smooth_unit a). lra.
  - apply (smooth_unit b). lra.
Qed.

Lemma smooth_nondecreasing_witness :
  0.25 <= 0.75 /\ smooth 0.25 <= smooth 0.75.
Proof.
  assert (H : 0.25 <= 0.75) by lra.
  split; [exact H|]. exact (proj1 (smooth_nondecreasing 0.25 0.75 H)).
Defined.

(** X2.  [rush_from] is [rush_into] seen from the other end of the
    timeline: running backwards in time and measuring the progress that is
    left turns one into the other. *)
Theorem rush_from_mirrors_rush_into (t : R) :
  rush_from t = 1 - rush_into (1 - t)
  /\ smooth (1 - t) = 1 - smooth t.
Proof.
  assert (E : 0.5 = / 2) by lra.
  unfold rush_from, rush_into, smooth. rewrite E. simpl. split; field.
Qed.

(** X3.  [there_and_back] is symmetric about the middle of the timeline,
    where it reaches 1, and on the unit interval it stays between 0
    and 1. *)
Theorem there_and_back_symmetric (t : R) :
  there_and_back (1 - t) = there_and_back t
  /\ there_and_back 0.5 = 1
  /\ (0 <= t <= 1 -> 0 <= there_and_back t <= 1).
Proof.
  split; [|split].
  - unfold there_and_back.
    destruct (Rlt_dec (1 - t) 0.5), (Rlt_dec t 0.5);
      try lra; f_equal; lra.
  - unfold there_and_back. if_lra.
    replace (2 * (1 - 0.5)) with 1 by lra. apply smooth_1.
  - intros H. unfold there_and_back.
    destruct (Rlt_dec t 0.5); apply smooth_unit; lra.
Qed.

(** X4.  [double_smooth] never decreases: within each half because
    [smooth] does not, and across the switch at one half because the first
    half ends where the second begins. *)
Theorem double_smooth_nondecreasing (a b : R) :
  a <= b ->
  double_smooth a <= double_smooth b
  /\ 0.5 * smooth (2 * 0.5) = double_smooth 0.5.
Proof.
  intros H. split.
  - unfold double_smooth.
    destruct (Rlt_dec a 0.5), (Rlt_dec b 0.5); try lra.
    + assert (smooth (2 * a) <= smooth (2 * b)) by (apply smooth_le; lra).
      lra.
    + assert (smooth (2 * a) <= smooth 1) by (apply smooth_le; lra).
      assert (smooth 0 <= smooth (2 * b - 1)) by (apply smooth_le; lra).
      rewrite smooth_1 in *. rewrite smooth_0 in *. lra.
    + assert (smooth (2 * a - 1) <= smooth (2 * b - 1))
        by (apply smooth_le; lra).
      lra.
  - unfold double_smooth. if_lra.
    replace (2 * 0.5) with 1 by lra. replace (1 - 1) with 0 by lra.
    rewrite smooth_1, smooth_0. lra.
Qed.

Lemma double_smooth_nondecreasing_witness :
  0.25 <= 0.75 /\ double_smooth 0.25 <= double_smooth 0.75.
Proof.
  assert (H : 0.25 <= 0.75) by lra.
  split; [exact H|]. exact (proj1 (double_smooth_nondecreasing 0.25 0.75 H)).
Defined.

(** X5.  [squish_rate_func func a b] with [a < b] holds [func 0] up to
    [a], holds [func 1] from [b] on, and in between runs [func] over the
    whole unit interval; with [a = b] it is the constant [a], whatever
    [func] is. *)
Theorem squish_rate_func_window (func : R -> R) (a b t : R) :
  a <= b ->
  (a = b -> squish_rate_func func a b t = a)
  /\ (a < b -> t <= a -> squish_rate_func func a b t = func 0)
  /\ (a < b -> b <= t -> squish_rate_func func a b t = func 1)
  /\ (a < b -> a <= t <= b ->
      squish_rate_func func a b t = func ((t - a) / (b - a))
      /\ 0 <= (t - a) / (b - a) <= 1).
Proof.
  intros Hab. unfold squish_rate_func. repeat split.
  - intros E. destruct (Req_dec_T a b); [reflexivity|contradiction].
  - intros Hlt Ht. destruct (Req_dec_T a b); [lra|].
    destruct (Rlt_dec t a); [reflexivity|].
    destruct (Rlt_dec b t); [lra|].
    f_equal. replace t with a by lra. field. lra.
  - intros Hlt Ht. destruct (Req_dec_T a b); [lra|].
    destruct (Rlt_dec t a); [lra|].
    destruct (Rlt_dec b t); [reflexivity|].
    f_equal. replace t with b by lra. field. lra.
  - destruct (Req_dec_T a b); [lra|].
    destruct (Rlt_dec t a); [lra|].
    destruct (Rlt_dec b t); [lra|reflexivity].
  - apply Rmult_le_pos; [lra|]. left. apply Rinv_0_lt_compat. lra.
  - apply Rmult_le_reg_r with (b - a); [lra|].
    replace ((t - a) / (b - a) * (b - a)) with (t - a) by (field; lra). lra.
Qed.

Lemma squish_rate_func_window_witness :
  0.4 <= 0.6 /\ squish_rate_func smooth 0.4 0.6 0.9 = smooth 1.
Proof.
  assert (H : 0.4 <= 0.6) by lra.
  split; [exact H|].
  apply (squish_rate_func_window smooth 0.4 0.6 0.9 H); lra.
Defined.

(** X6.  [lingering] is a linear ramp that has done all its work at
    [t = 0.8] and lingers at 1 afterwards: 0 up to [t = 0], [t / 0.8]
    between 0 and 0.8, and 1 from 0.8 on. *)
Theorem lingering_ramp (t : R) :
  (t <= 0 -> lingering t = 0)
  /\ (0 <= t <= 0.8 -> lingering t = t / 0.8)
  /\ (0.8 <= t -> lingering t = 1).
Proof.
  unfold lingering, squish_rate_func.
  destruct (Req_dec_T 0 0.8); [lra|].
  destruct (Rlt_dec t 0), (Rlt_dec 0.8 t); repeat split; intros; lra.
Qed.

(** X7.  With a positive half-life [exponential_decay] never decreases
    with [t], stays within [0, 1] from [t = 0] on, and what is left to 1
    is divided by e, not by 2, every time [t] advances by [half_life]. *)
Theorem exponential_decay_saturates (half_life a b : R) :
  0 < half_life -> a <= b ->
  exponential_decay a half_life <= exponential_decay b half_life
  /\ exponential_decay b half_life <= 1
  /\ (0 <= a -> 0 <= exponential_decay a half_life)
  /\ 1 - exponential_decay (a + half_life) half_life
     = (1 - exponential_decay a half_life) * exp (-1).
Proof.
  intros Hh Hab. unfold exponential_decay.
  assert (Hexp : exp (- b / half_life) <= exp (- a / half_life)).
  { destruct Hab as [Hab| ->]; [|lra]. left. apply exp_increasing.
    unfold Rdiv.
    apply Rmult_lt_compat_r; [apply Rinv_0_lt_compat, Hh|lra]. }
  pose proof (exp_pos (- b / half_life)).
  split; [lra|]. split; [lra|]. split.
  - intros Ha.
    assert (exp (- a / half_life) <= 1); [|lra].
    destruct Ha as [Ha|<-].
    + left. rewrite <- exp_0. apply exp_increasing. unfold Rdiv.
      assert (0 < a * / half_life)
        by (apply Rmult_lt_0_compat; [exact Ha|apply Rinv_0_lt_compat, Hh]).
      lra.
    + right. replace (- 0 / half_life) with 0 by (field; lra). apply exp_0.
  - replace (- (a + half_life) / half_life) with (- a / half_life + -1)
      by (field; lra).
    rewrite exp_plus. ring.
Qed.

Lemma exponential_decay_saturates_witness :
  0 < default_half_life /\ 0 <= 1
  /\ exponential_decay 0 default_half_life
     <= exponential_decay 1 default_half_life
  /\ exponential_decay 1 default_half_life <= 1.
Proof.
  assert (Hh : 0 < default_half_life) by (unfold default_half_life; lra).
  assert (H01 : 0 <= 1) by lra.
  split; [exact Hh|]. split; [exact H01|].
  destruct (exponential_decay_saturates default_half_life 0 1 Hh H01)
    as (Hmono & Hle & _).
  split; [exact Hmono|exact Hle].
Defined.

(** X25.  [wiggle] stays within [-1, 1] over the unit interval, whatever
    the number of wiggles, and it is at rest at both ends. *)
Theorem wiggle_bounded (t wiggles : R) :
  0 <= t <= 1 ->
  -1 <= wiggle t wiggles <= 1
  /\ wiggle 0 wiggles = 0
  /\ wiggle 1 wiggles = 0.
Proof.
  intros H. unfold wiggle. rewrite there_and_back_0, there_and_back_1.
  split; [|split; lra].
  assert (Hb : 0 <= there_and_back t <= 1).
  { unfold there_and_back. destruct (Rlt_dec t 0.5); apply smooth_unit; lra. }
  pose proof (SIN_bound (wiggles * PI * t)) as Hs. nra.
Qed.

Lemma wiggle_bounded_witness :
  0 <= 0.25 <= 1 /\ -1 <= wiggle 0.25 default_wiggles <= 1.
Proof.
  assert (H : 0 <= 0.25 <= 1) by lra.
  split; [exact H|]. exact (proj1 (wiggle_bounded 0.25 default_wiggles H)).
Defined.

(** X26.  [slow_into] is a quarter of the unit circle centred at (1, 0):
    on the unit interval [(1 - t)^2 + slow_into(t)^2 = 1], the curve stays
    between 0 and 1 and it never decreases. *)
Theorem slow_into_quarter_circle (a b : R) :
  0 <= a -> a <= b -> b <= 1 ->
  (1 - a) ^ 2 + slow_into a ^ 2 = 1
  /\ 0 <= slow_into a <= 1
  /\ slow_into a <= slow_into b.
Proof.
  intros Ha Hab Hb. unfold slow_into.
  assert (Hpos : 0 <= 1 - (1 - a) * (1 - a)) by nra.
  split; [|split; [split|]].
  - rewrite pow2_sqrt by exact Hpos. ring.
  - apply sqrt_pos.
  - apply Rle_trans with (sqrt 1); [|rewrite sqrt_1; lra].
    apply sqrt_le_1_alt. nra.
  - apply sqrt_le_1_alt. nra.
Qed.

Lemma slow_into_quarter_circle_witness :
  0 <= 0.25 /\ 0.25 <= 0.75 /\ 0.75 <= 1
  /\ slow_into 0.25 <= slow_into 0.75.
Proof.
  assert (H1 : 0 <= 0.25) by lra. assert (H2 : 0.25 <= 0.75) by lra.
  assert (H3 : 0.75 <= 1) by lra.
  split; [exact H1|]. split; [exact H2|]. split; [exact H3|].
  exact (proj2 (proj2 (slow_into_quarter_circle 0.25 0.75 H1 H2 H3))).
Defined.

End RateFunctions.

(** ** manimlib/animation/creation.py *)

Module Creation.
Import Python SimpleFunctions Bezier.

(** *** ShowCreation *)

Definition ShowCreation_get_bounds (alpha : R) : R * R := (0, alpha).

(** C5.  [ShowCreation.get_bounds(alpha)] is [(0, alpha)] for every
    [alpha]; on [0,1] the lower bound is at most the upper bound; at
    [alpha = 1] the bounds are [(0, 1)]. *)
Theorem ShowCreation_get_bounds_spec (alpha : R) :
  ShowCreation_get_bounds alpha = (0, alpha)
  /\ (0 <= alpha <= 1 ->
      fst (ShowCreation_get_bounds alpha) <= snd (ShowCreation_get_bounds alpha))
  /\ ShowCreation_get_bounds 1 = (0, 1).
Proof.
  split; [reflexivity|]. split; [|reflexivity].
  simpl. intros [H _]. exact H.
Qed.

Lemma ShowCreation_get_bounds_witness :
  0 <= 0.2 <= 1
  /\ fst (ShowCreation_get_bounds 0.2) <= snd (ShowCreation_get_bounds 0.2).
Proof.
  assert (H : 0 <= 0.2 <= 1) by lra.
  split; [exact H|].
  exact (proj1 (proj2 (ShowCreation_get_bounds_spec 0.2)) H).
Defined.

(** *** DrawBorderThenFill *)

Section DrawBorderThenFill.

(** The part of a [VMobject] that its methods read and write, the value of
    its [data] attribute, and the three methods of [VMobject] that
    [interpolate_submobject] calls on [submob].  They are defined in
    [manimlib.mobject], outside the sources at hand; each mutates its
    receiver only, which is the first argument here. *)
Variable Body : Type.
Variable Data : Type.
Variable data : Body -> Data.
Variable set_data : Body -> Data -> Body.
Variable pointwise_become_partial : Body -> Body -> R -> R -> Body.
Variable interpolate_body : Body -> Body -> Body -> R -> Body.

(** An object: its identity, which is what [hash(sm)] returns for a class
    without [__hash__], and its mutable body. *)
Record VMobject : Type := { hash : Z; body : Body }.

Definition with_body (sm : VMobject) (b : Body) : VMobject :=
  {| hash := hash sm; body := b |}.

(** [self.sm_to_index = {hash(sm): 0 for sm in vmobject.get_family()}] *)
Definition init_sm_to_index (family : list VMobject) : gmap Z Z :=
  list_to_map ((fun sm => (hash sm, 0%Z)) <$> family).

(** [DrawBorderThenFill.interpolate_submobject].  The result is the
    dictionary and the submobject after the call, or [None] when the lookup
    [self.sm_to_index[hash(submob)]] raises KeyError.  The lookup is the
    second operand of [and]: it is evaluated only when [index == 1]. *)
Definition interpolate_submobject
    (sm_to_index : gmap Z Z) (submob start outline : VMobject) (alpha : R)
  : option (gmap Z Z * VMobject) :=
  let '(index, subalpha) := integer_interpolate 0 2 alpha in
  '(sm_to_index1, submob1) ←
    (if (index =? 1)%Z then
       flag ← sm_to_index !! hash submob;
       if (flag =? 0)%Z then
         (* First time crossing over *)
         Some (<[hash submob := 1%Z]> sm_to_index,
               with_body submob (set_data (body submob) (data (body outline))))
       else Some (sm_to_index, submob)
     else Some (sm_to_index, submob));
  Some (sm_to_index1,
        if (index =? 0)%Z then
          with_body submob1
            (pointwise_become_partial (body submob1) (body outline) 0 subalpha)
        else
          with_body submob1
            (interpolate_body (body submob1) (body outline) (body start)
               subalpha)).

(** Whether a call at [alpha] executes [submob.set_data(outline.data)]. *)
Definition swaps_data (sm_to_index : gmap Z Z) (submob : VMobject) (alpha : R)
  : bool :=
  let '(index, _) := integer_interpolate 0 2 alpha in
  (index =? 1)%Z && bool_decide (sm_to_index !! hash submob = Some 0%Z).

(** The successive calls of one animation on one submobject, one per frame,
    counting the calls that execute [set_data]. *)
Fixpoint play (sm_to_index : gmap Z Z) (submob start outline : VMobject)
    (alphas : list R) (swaps : nat) : option (gmap Z Z * VMobject * nat) :=
  match alphas with
  | [] => Some (sm_to_index, submob, swaps)
  | alpha :: rest =>
      '(sm_to_index1, submob1) ←
        interpolate_submobject sm_to_index submob start outline alpha;
      play sm_to_index1 submob1 start outline rest
        (if swaps_data sm_to_index submob alpha then S swaps else swaps)
  end.

Lemma interpolate_submobject_first_half d submob start outline alpha :
  0 <= alpha < 0.5 ->
  interpolate_submobject d submob start outline alpha
  = Some (d, with_body submob
               (pointwise_become_partial (body submob) (body outline)
                  0 (2 * alpha))).
Proof.
  intros H. unfold interpolate_submobject.
  rewrite (integer_interpolate_first_half alpha H). reflexivity.
Qed.

Lemma interpolate_submobject_crossing d submob start outline alpha :
  0.5 <= alpha <= 1 -> d !! hash submob = Some 0%Z ->
  interpolate_submobject d submob start outline alpha
  = Some (<[hash submob := 1%Z]> d,
          with_body submob
            (interpolate_body
               (set_data (body submob) (data (body outline)))
               (body outline) (body start) (2 * alpha - 1))).
Proof.
  intros H Hd. unfold interpolate_submobject.
  rewrite (integer_interpolate_second_half alpha H). simpl.
  rewrite Hd. reflexivity.
Qed.

Lemma interpolate_submobject_crossed d submob start outline alpha flag :
  0.5 <= alpha <= 1 -> d !! hash submob = Some flag -> flag <> 0%Z ->
  interpolate_submobject d submob start outline alpha
  = Some (d, with_body submob
               (interpolate_body (body submob) (body outline) (body start)
                  (2 * alpha - 1))).
Proof.
  intros H Hd Hflag. unfold interpolate_submobject.
  rewrite (integer_interpolate_second_half alpha H). simpl.
  rewrite Hd. simpl. apply Z.eqb_neq in Hflag. rewrite Hflag. reflexivity.
Qed.

Lemma swaps_data_first_half d submob alpha :
  0 <= alpha < 0.5 -> swaps_data d submob alpha = false.
Proof.
  intros H. unfold swaps_data.
  rewrite (integer_interpolate_first_half alpha H). reflexivity.
Qed.

Lemma swaps_data_second_half d submob alpha :
  0.5 <= alpha <= 1 ->
  swaps_data d submob alpha = bool_decide (d !! hash submob = Some 0%Z).
Proof.
  intros H. unfold swaps_data.
  rewrite (integer_interpolate_second_half alpha H). reflexivity.
Qed.

(** [swaps_data] tells whether the call goes through [set_data]: if it
    does, the flag is set and the body is interpolated from the swapped
    data; if not, the dictionary is unchanged and the body is built from
    the body as it was. *)
Lemma swaps_data_correct d submob start outline alpha :
  (swaps_data d submob alpha = true ->
   exists subalpha,
     interpolate_submobject d submob start outline alpha
     = Some (<[hash submob := 1%Z]> d,
             with_body submob
               (interpolate_body
                  (set_data (body submob) (data (body outline)))
                  (body outline) (body start) subalpha)))
  /\ (swaps_data d submob alpha = false ->
      forall d' submob',
        interpolate_submobject d submob start outline alpha
        = Some (d', submob') ->
        d' = d
        /\ exists subalpha,
             submob' = with_body submob
                         (pointwise_become_partial (body submob)
                            (body outline) 0 subalpha)
             \/ submob' = with_body submob
                            (interpolate_body (body submob) (body outline)
                               (body start) subalpha)).
Proof.
  unfold swaps_data, interpolate_submobject.
  destruct (integer_interpolate 0 2 alpha) as [index subalpha].
  destruct (Z.eqb_spec index 1) as [->|Hne]; simpl.
  - split.
    + intros H. apply bool_decide_eq_true in H. rewrite H. simpl.
      exists subalpha. reflexivity.
    + intros H d' submob' E. apply bool_decide_eq_false in H.
      destruct (d !! hash submob) as [flag|]; [|discriminate].
      simpl in E. destruct (Z.eqb_spec flag 0) as [->|_]; [congruence|].
      simpl in E. injection E as <- <-. split; [reflexivity|].
      exists subalpha. right. reflexivity.
  - split; [discriminate|]. intros _ d' submob' E.
    injection E as <- <-. split; [reflexivity|]. exists subalpha.
    destruct (index =? 0)%Z; [left|right]; reflexivity.
Qed.

(** Once the flag of [submob] is 1, no later call executes [set_data]:
    every frame works on the body the frame before it left. *)
Lemma play_after_crossing d submob start outline alphas swaps :
  Forall (fun a => 0 <= a <= 1) alphas ->
  d !! hash submob = Some 1%Z ->
  exists submob',
    play d submob start outline alphas swaps = Some (d, submob', swaps)
    /\ hash submob' = hash submob
    /\ body submob'
       = fold_left
           (fun b a =>
              if Rlt_dec a 0.5
              then pointwise_become_partial b (body outline) 0 (2 * a)
              else interpolate_body b (body outline) (body start) (2 * a - 1))
           alphas (body submob).
Proof.
  intros Hall. revert submob. induction Hall as [|alpha rest Ha _ IH];
    intros submob Hd.
  - exists submob. split; [reflexivity|]. split; reflexivity.
  - simpl. destruct (Rlt_dec alpha 0.5) as [Hlt|Hge].
    + rewrite interpolate_submobject_first_half by lra. simpl.
      rewrite swaps_data_first_half by lra.
      destruct (IH (with_body submob
        (pointwise_become_partial (body submob) (body outline) 0 (2 * alpha))))
        as (sm' & E & Hh & Hb); [exact Hd|].
      exists sm'. split; [exact E|]. split; [exact Hh|exact Hb].
    + rewrite (interpolate_submobject_crossed d submob start outline alpha 1)
        by (try lra; try lia; assumption). simpl.
      rewrite swaps_data_second_half by lra.
      rewrite bool_decide_eq_false_2 by (rewrite Hd; discriminate).
      destruct (IH (with_body submob
        (interpolate_body (body submob) (body outline) (body start)
           (2 * alpha - 1)))) as (sm' & E & Hh & Hb); [exact Hd|].
      exists sm'. split; [exact E|]. split; [exact Hh|exact Hb].
Qed.

(** The frames before the crossing reveal the outline and nothing else:
    the dictionary and the count of swaps are as they were. *)
Lemma play_first_half d submob start outline pre rest swaps :
  Forall (fun a => 0 <= a < 0.5) pre ->
  play d submob start outline (pre ++ rest) swaps
  = play d
      (with_body submob
         (fold_left
            (fun b a => pointwise_become_partial b (body outline) 0 (2 * a))
            pre (body submob)))
      start outline rest swaps.
Proof.
  intros Hall. revert submob. induction Hall as [|alpha pre Ha _ IH];
    intros submob.
  - destruct submob. reflexivity.
  - simpl. rewrite interpolate_submobject_first_half by lra. simpl.
    rewrite swaps_data_first_half by lra.
    rewrite IH. reflexivity.
Qed.

(** Before the crossing nothing is swapped; the first call with
    [alpha >= 0.5] swaps, and it is the only one. *)
Lemma play_swaps_once d submob start outline alphas :
  Forall (fun a => 0 <= a <= 1) alphas ->
  d !! hash submob = Some 0%Z ->
  exists d' submob' swaps,
    play d submob start outline alphas 0 = Some (d', submob', swaps)
    /\ (swaps <= 1)%nat
    /\ (swaps = 1%nat <-> Exists (fun a => 0.5 <= a) alphas).
Proof.
  intros Hall. revert submob. induction Hall as [|alpha rest Ha Hrest IH];
    intros submob Hd.
  - exists d, submob, 0%nat. split; [reflexivity|]. split; [lia|].
    split; [discriminate|]. intros H. inversion H.
  - simpl. destruct (Rlt_dec alpha 0.5) as [Hlt|Hge].
    + rewrite interpolate_submobject_first_half by lra. simpl.
      rewrite swaps_data_first_half by lra.
      destruct (IH (with_body submob
        (pointwise_become_partial (body submob) (body outline) 0 (2 * alpha))))
        as (d' & sm' & n & E & Hn & Hiff); [exact Hd|].
      exists d', sm', n. split; [exact E|]. split; [exact Hn|].
      rewrite Hiff. split; intros H.
      * apply Exists_cons_tl. exact H.
      * inversion H; subst; [lra|assumption].
    + rewrite interpolate_submobject_crossing by (try lra; assumption). simpl.
      rewrite swaps_data_second_half by lra.
      rewrite bool_decide_eq_true_2 by exact Hd.
      destruct (play_after_crossing (<[hash submob := 1%Z]> d)
        (with_body submob
           (interpolate_body (set_data (body submob) (data (body outline)))
              (body outline) (body start) (2 * alpha - 1)))
        start outline rest 1 Hrest) as [sm' [E _]].
      { simpl. apply lookup_insert_eq. }
      exists (<[hash submob := 1%Z]> d), sm', 1%nat.
      split; [exact E|]. split; [lia|].
      split; [intros _|reflexivity].
      apply Exists_cons_hd. lra.
Qed.

(** The whole run of one animation on one submobject, through the crossing:
    frames [pre] below one half, the frame [alpha] that crosses, frames
    [post] after it.  [set_data] is applied once, to the body that the
    frames before the crossing left, and the frames after it work on. *)
Lemma play_through_crossing d submob start outline pre alpha post :
  Forall (fun a => 0 <= a < 0.5) pre ->
  0.5 <= alpha <= 1 ->
  Forall (fun a => 0 <= a <= 1) post ->
  d !! hash submob = Some 0%Z ->
  exists submob',
    play d submob start outline (pre ++ alpha :: post) 0
    = Some (<[hash submob := 1%Z]> d, submob', 1%nat)
    /\ hash submob' = hash submob
    /\ body submob'
       = fold_left
           (fun b a =>
              if Rlt_dec a 0.5
              then pointwise_become_partial b (body outline) 0 (2 * a)
              else interpolate_body b (body outline) (body start) (2 * a - 1))
           post
           (interpolate_body
              (set_data
                 (fold_left
                    (fun b a =>
                       pointwise_become_partial b (body outline) 0 (2 * a))
                    pre (body submob))
                 (data (body outline)))
              (body outline) (body start) (2 * alpha - 1)).
Proof.
  intros Hpre Ha Hpost Hd.
  rewrite (play_first_half d submob start outline pre (alpha :: post) 0 Hpre).
  set (revealed := fold_left
         (fun b a => pointwise_become_partial b (body outline) 0 (2 * a))
         pre (body submob)).
  simpl play.
  rewrite interpolate_submobject_crossing by (try lra; exact Hd). simpl.
  rewrite swaps_data_second_half by lra.
  rewrite bool_decide_eq_true_2 by exact Hd.
  destruct (play_after_crossing (<[hash submob := 1%Z]> d)
    (with_body submob
       (interpolate_body (set_data revealed (data (body outline)))
          (body outline) (body start) (2 * alpha - 1)))
    start outline post 1 Hpost) as (sm' & E & Hh & Hb).
  { simpl. apply lookup_insert_eq. }
  exists sm'. split; [exact E|]. split; [exact Hh|exact Hb].
Qed.

(** C2.  For [alpha] in [0,1] and a submobject of the animated family, the
    submobject stays the same object and its body after the call is: below
    one half, the partial outline on the bounds [(0, 2*alpha)]; from one
    half on, the interpolation from the outline to the start state at
    [2*alpha - 1], computed on the body swapped in one step by
    [set_data(outline.data)] exactly when the flag is still 0, which sets
    the flag to 1, and on the body as it was otherwise.  Over any sequence
    of frames the swap is executed at most once, and once exactly when some
    frame reaches one half; in a run that crosses at [alpha], the body at
    the end has gone through [set_data] once, between the frames before and
    the frames after the crossing. *)
Theorem DrawBorderThenFill_two_halves
    (d : gmap Z Z) (submob start outline : VMobject) (alpha : R) :
  0 <= alpha <= 1 ->
  is_Some (d !! hash submob) ->
  (alpha < 0.5 ->
     exists submob',
       interpolate_submobject d submob start outline alpha
       = Some (d, submob')
       /\ hash submob' = hash submob
       /\ body submob'
          = pointwise_become_partial (body submob) (body outline)
              0 (2 * alpha))
  /\ (0.5 <= alpha -> d !! hash submob = Some 0%Z ->
     exists submob',
       interpolate_submobject d submob start outline alpha
       = Some (<[hash submob := 1%Z]> d, submob')
       /\ hash submob' = hash submob
       /\ body submob'
          = interpolate_body
              (set_data (body submob) (data (body outline)))
              (body outline) (body start) (2 * alpha - 1))
  /\ (0.5 <= alpha -> d !! hash submob <> Some 0%Z ->
     exists submob',
       interpolate_submobject d submob start outline alpha
       = Some (d, submob')
       /\ hash submob' = hash submob
       /\ body submob'
          = interpolate_body (body submob) (body outline) (body start)
              (2 * alpha - 1))
  /\ (forall alphas : list R,
       Forall (fun a => 0 <= a <= 1) alphas ->
       d !! hash submob = Some 0%Z ->
       exists d' submob' swaps,
         play d submob start outline alphas 0 = Some (d', submob', swaps)
         /\ (swaps <= 1)%nat
         /\ (swaps = 1%nat <-> Exists (fun a => 0.5 <= a) alphas))
  /\ (forall pre post : list R,
       Forall (fun a => 0 <= a < 0.5) pre ->
       Forall (fun a => 0 <= a <= 1) post ->
       0.5 <= alpha -> d !! hash submob = Some 0%Z ->
       exists submob',
         play d submob start outline (pre ++ alpha :: post) 0
         = Some (<[hash submob := 1%Z]> d, submob', 1%nat)
         /\ hash submob' = hash submob
         /\ body submob'
            = fold_left
                (fun b a =>
                   if Rlt_dec a 0.5
                   then pointwise_become_partial b (body outline) 0 (2 * a)
                   else interpolate_body b (body outline) (body start)
                          (2 * a - 1))
                post
                (interpolate_body
                   (set_data
                      (fold_left
                         (fun b a =>
                            pointwise_become_partial b (body outline)
                              0 (2 * a))
                         pre (body submob))
                      (data (body outline)))
                   (body outline) (body start) (2 * alpha - 1))).
Proof.
  intros Ha [flag Hd]. split; [|split; [|split; [|split]]].
  - intros Hlt. eexists. split; [|split].
    + apply interpolate_submobject_first_half. lra.
    + reflexivity.
    + reflexivity.
  - intros Hge Hd0. eexists. split; [|split].
    + apply interpolate_submobject_crossing; [lra|exact Hd0].
    + reflexivity.
    + reflexivity.
  - intros Hge Hne. eexists. split; [|split].
    + apply (interpolate_submobject_crossed d submob start outline alpha flag);
        [lra|exact Hd|]. intros ->. apply Hne. exact Hd.
    + reflexivity.
    + reflexivity.
  - intros alphas Hall Hd0. apply play_swaps_once; assumption.
  - intros pre post Hpre Hpost Hge Hd0.
    apply play_through_crossing; [exact Hpre|lra|exact Hpost|exact Hd0].
Qed.

End DrawBorderThenFill.

Arguments hash {Body} _.
Arguments body {Body} _.
Arguments with_body {Body} _ _.

(** An instance for evaluation: a body is the list of operations applied
    to it so far. *)
Inductive op : Type :=
  | SetData
  | PartialOf (lower upper : R)
  | InterpolateAt (subalpha : R).

Definition demo_sm : VMobject (list op) := {| hash := 7; body := [] |}.
Definition demo_start : VMobject (list op) := {| hash := 8; body := [] |}.
Definition demo_outline : VMobject (list op) := {| hash := 9; body := [] |}.

Definition demo_interpolate_submobject :=
  interpolate_submobject (list op) (list op)
    (fun b => b)
    (fun b _ => SetData :: b)
    (fun b _ lower upper => PartialOf lower upper :: b)
    (fun b _ _ subalpha => InterpolateAt subalpha :: b).

Lemma DrawBorderThenFill_two_halves_witness :
  0 <= 0.75 <= 1
  /\ is_Some (({[7%Z := 0%Z]} : gmap Z Z) !! hash demo_sm)
  /\ (exists submob',
        demo_interpolate_submobject {[7%Z := 0%Z]}
          demo_sm demo_start demo_outline 0.75
        = Some (<[7%Z := 1%Z]> {[7%Z := 0%Z]}, submob')
        /\ hash submob' = 7%Z
        /\ body submob' = [InterpolateAt (2 * 0.75 - 1); SetData])
  /\ (exists submob',
        play (list op) (list op)
          (fun b => b)
          (fun b _ => SetData :: b)
          (fun b _ lower upper => PartialOf lower upper :: b)
          (fun b _ _ subalpha => InterpolateAt subalpha :: b)
          {[7%Z := 0%Z]} demo_sm demo_start demo_outline [0.25; 0.75; 1] 0
        = Some (<[7%Z := 1%Z]> {[7%Z := 0%Z]}, submob', 1%nat)
        /\ body submob'
           = [InterpolateAt (2 * 1 - 1); InterpolateAt (2 * 0.75 - 1);
              SetData; PartialOf 0 (2 * 0.25)]).
Proof.
  assert (Ha : 0 <= 0.75 <= 1) by lra.
  assert (Hk : is_Some (({[7%Z := 0%Z]} : gmap Z Z) !! hash demo_sm))
    by (exists 0%Z; reflexivity).
  assert (Hge : 0.5 <= 0.75) by lra.
  assert (Hpre : Forall (fun a => 0 <= a < 0.5) [0.25]).
  { constructor; [lra|constructor]. }
  assert (Hpost : Forall (fun a => 0 <= a <= 1) [1]).
  { constructor; [lra|constructor]. }
  destruct (DrawBorderThenFill_two_halves (list op) (list op)
              (fun b => b)
              (fun b _ => SetData :: b)
              (fun b _ lower upper => PartialOf lower upper :: b)
              (fun b _ _ subalpha => InterpolateAt subalpha :: b)
              {[7%Z := 0%Z]} demo_sm demo_start demo_outline 0.75 Ha Hk)
    as (_ & Hcross & _ & _ & Hrun).
  split; [exact Ha|]. split; [exact Hk|]. split.
  - destruct (Hcross Hge eq_refl) as (sm' & E & Hh & Hb).
    exists sm'. split; [exact E|]. split; [exact Hh|exact Hb].
  - destruct (Hrun [0.25] [1] Hpre Hpost Hge eq_refl) as (sm' & E & _ & Hb).
    exists sm'. split; [exact E|]. rewrite Hb. simpl.
    destruct (Rlt_dec 1 0.5); [lra|reflexivity].
Defined.

(** *** ShowIncreasingSubsets and ShowSubmobjectsOneByOne *)

(** [np.ceil] *)
Definition np_ceil (x : R) : R := IZR (Zceil x).

Section ShowIncreasingSubsets.

Variable Mobject : Type.
Variable rate_func : R -> R.
Variable int_func : R -> R.

(** [self.all_submobs[:index]] is what [set_submobjects] receives. *)
Definition ShowIncreasingSubsets_update_submobject_list
    (all_submobs : list Mobject) (index : Z) : option (list Mobject) :=
  Some (slice_to all_submobs index).

(** [ShowSubmobjectsOneByOne.update_submobject_list]: the list handed to
    [set_submobjects], or [None] when the subscript raises IndexError. *)
Definition ShowSubmobjectsOneByOne_update_submobject_list
    (all_submobs : list Mobject) (index : Z) : option (list Mobject) :=
  let index := clip_int index 0 (Z.of_nat (length all_submobs) - 1) in
  if (index =? 0)%Z then Some []
  else x ← getitem all_submobs (index - 1); Some [x].

(** [ShowIncreasingSubsets.interpolate_mobject], which both classes share,
    with the class's [update_submobject_list]. *)
Definition interpolate_mobject
    (update_submobject_list : list Mobject -> Z -> option (list Mobject))
    (all_submobs : list Mobject) (alpha : R) : option (list Mobject) :=
  let n_submobs := length all_submobs in
  let alpha := rate_func alpha in
  let index := py_int (int_func (alpha * INR n_submobs)) in
  update_submobject_list all_submobs index.

Definition ShowSubmobjectsOneByOne_interpolate_mobject :=
  interpolate_mobject ShowSubmobjectsOneByOne_update_submobject_list.

(** The increasing-subsets class, with the index [len(all_submobs)] that
    [alpha = 1] gives, shows every child, the last one included. *)
Lemma ShowIncreasingSubsets_shows_all (all_submobs : list Mobject) :
  ShowIncreasingSubsets_update_submobject_list all_submobs
    (Z.of_nat (length all_submobs)) = Some all_submobs.
Proof.
  unfold ShowIncreasingSubsets_update_submobject_list, slice_to.
  destruct (Z.leb_spec 0 (Z.of_nat (length all_submobs))); [|lia].
  rewrite Nat2Z.id, firstn_all. reflexivity.
Qed.

Lemma clip_int_range (a lo hi : Z) :
  (lo <= hi)%Z -> (lo <= clip_int a lo hi <= hi)%Z.
Proof.
  intros H. unfold clip_int.
  destruct (Z.ltb_spec a lo); [lia|].
  destruct (Z.ltb_spec hi a); lia.
Qed.

(** What the one-by-one class hands to [set_submobjects]: the empty list,
    or one child, and then a child that is not the last one. *)
Lemma ShowSubmobjectsOneByOne_shown all_submobs index shown :
  ShowSubmobjectsOneByOne_update_submobject_list all_submobs index
  = Some shown ->
  shown = []
  \/ exists (k : nat) (x : Mobject),
       (S k < length all_submobs)%nat
       /\ all_submobs !! k = Some x /\ shown = [x].
Proof.
  unfold ShowSubmobjectsOneByOne_update_submobject_list.
  set (n := Z.of_nat (length all_submobs)).
  set (idx := clip_int index 0 (n - 1)).
  destruct (Z.eqb_spec idx 0) as [E0|Hne]; [intros [= <-]; left; reflexivity|].
  intros H. right.
  destruct (Z_lt_le_dec (n - 1) 0) as [Hempty|Hn].
  - (* the empty group: the subscript is -2 *)
    assert (idx = (-1)%Z \/ idx = 0%Z) as [E|E]; [|rewrite E in H|lia].
    { unfold idx, clip_int.
      destruct (Z.ltb_spec index 0); [right; reflexivity|].
      destruct (Z.ltb_spec (n - 1) index); lia. }
    unfold getitem in H. fold n in H.
    replace n with 0%Z in H by lia. simpl in H. discriminate.
  - pose proof (clip_int_range index 0 (n - 1) Hn) as Hr. fold idx in Hr.
    unfold getitem in H.
    destruct (Z.leb_spec 0 (idx - 1)); [|lia].
    destruct (all_submobs !! Z.to_nat (idx - 1)) as [x|] eqn:E;
      [|discriminate].
    simpl in H. injection H as <-.
    exists (Z.to_nat (idx - 1)), x. split; [lia|]. split; [exact E|reflexivity].
Qed.

(** With at least one child the subscript is always in range. *)
Lemma ShowSubmobjectsOneByOne_no_IndexError all_submobs index :
  all_submobs <> [] ->
  is_Some (ShowSubmobjectsOneByOne_update_submobject_list all_submobs index).
Proof.
  intros Hne. unfold ShowSubmobjectsOneByOne_update_submobject_list.
  set (n := Z.of_nat (length all_submobs)).
  assert (Hn : (0 <= n - 1)%Z).
  { destruct all_submobs; [congruence|]. unfold n. simpl length. lia. }
  pose proof (clip_int_range index 0 (n - 1) Hn) as Hr.
  set (idx := clip_int index 0 (n - 1)) in *.
  destruct (Z.eqb_spec idx 0); [eexists; reflexivity|].
  unfold getitem. destruct (Z.leb_spec 0 (idx - 1)); [|lia].
  destruct (lookup_lt_is_Some_2 all_submobs (Z.to_nat (idx - 1))) as [x E];
    [lia|].
  rewrite E. eexists; reflexivity.
Qed.

(** With no child at all the subscript is [-2] on an empty list. *)
Lemma ShowSubmobjectsOneByOne_empty_group index :
  (0 <= index)%Z ->
  ShowSubmobjectsOneByOne_update_submobject_list [] index = None.
Proof.
  intros H. unfold ShowSubmobjectsOneByOne_update_submobject_list, clip_int.
  simpl length. change (Z.of_nat 0 - 1)%Z with (-1)%Z.
  destruct (Z.ltb_spec index 0); [lia|].
  destruct (Z.ltb_spec (-1) index); [reflexivity|lia].
Qed.

(** The last child is never the displayed one. *)
Lemma ShowSubmobjectsOneByOne_never_last all_submobs index x :
  NoDup all_submobs -> last all_submobs = Some x ->
  ShowSubmobjectsOneByOne_update_submobject_list all_submobs index
  <> Some [x].
Proof.
  intros Hnd Hlast H.
  destruct (ShowSubmobjectsOneByOne_shown _ _ _ H)
    as [|(k & y & Hk & Hy & [= <-])]; [discriminate|].
  rewrite last_lookup in Hlast.
  pose proof (NoDup_lookup _ _ _ _ Hnd Hy Hlast). lia.
Qed.

End ShowIncreasingSubsets.

(** C7 (the code at a failing input).  A group of three children, the
    default [int_func] (ceiling) and a linear rate function: at [alpha = 1]
    the index 3 is clipped to 2 and the second child is displayed; whatever
    the rate function, the rounding function and [alpha], the third child
    is never the displayed one. *)
Theorem ShowSubmobjectsOneByOne_last_child_never_shown :
  let children := ["a"; "b"; "c"]%string in
  ShowSubmobjectsOneByOne_interpolate_mobject string
    RateFunctions.linear np_ceil children 1 = Some ["b"%string]
  /\ forall (rate_func int_func : R -> R) (alpha : R),
       ShowSubmobjectsOneByOne_interpolate_mobject string
         rate_func int_func children alpha <> Some ["c"%string].
Proof.
  intros children. split.
  - unfold ShowSubmobjectsOneByOne_interpolate_mobject, interpolate_mobject,
      RateFunctions.linear, np_ceil.
    assert (E : Zceil (1 * INR (length children)) = 3%Z).
    { apply Zceil_eq. simpl. lra. }
    rewrite E. unfold py_int.
    destruct (Rle_dec 0 3) as [_|]; [|lra].
    rewrite ZfloorZ. reflexivity.
  - intros rate_func int_func alpha.
    apply ShowSubmobjectsOneByOne_never_last; [|reflexivity].
    apply (bool_decide_unpack _). vm_compute. exact I.
Qed.

(** *** Write *)

(** [Write.compute_run_time] *)
Definition Write_compute_run_time (family_size : nat) (run_time : R) : R :=
  if Rlt_dec run_time 0 then
    if (family_size <? 15)%nat then 1 else 2
  else run_time.

(** [Write.compute_lag_ratio] *)
Definition Write_compute_lag_ratio (family_size : nat) (lag_ratio : R) : R :=
  if Rlt_dec lag_ratio 0 then Rmin (4.0 / (INR family_size + 1.0)) 0.2
  else lag_ratio.

(** The defaults of [Write.__init__], which ask for both to be computed. *)
Definition Write_default_run_time : R := -1.
Definition Write_default_lag_ratio : R := -1.

(** X8.  A [Write] left to its defaults runs for 1 second with fewer than
    15 pieces and 2 seconds otherwise, and its lag ratio is positive, at
    most 0.2 (exactly 0.2 up to 19 pieces), and small enough that the lag
    summed over all pieces stays below 4.  Values given by the caller, if
    not negative, are kept. *)
Theorem Write_default_timing (family_size : nat) (given : R) :
  let lag := Write_compute_lag_ratio family_size Write_default_lag_ratio in
  let time := Write_compute_run_time family_size Write_default_run_time in
  0 < lag <= 0.2
  /\ lag * INR family_size < 4
  /\ ((family_size <= 19)%nat -> lag = 0.2)
  /\ ((family_size < 15)%nat -> time = 1)
  /\ ((15 <= family_size)%nat -> time = 2)
  /\ (0 <= given ->
      Write_compute_lag_ratio family_size given = given
      /\ Write_compute_run_time family_size given = given).
Proof.
  intros lag time. unfold lag, time, Write_compute_lag_ratio,
    Write_compute_run_time, Write_default_lag_ratio, Write_default_run_time.
  destruct (Rlt_dec (-1) 0) as [_|]; [|lra].
  assert (E4 : 4.0 = 4) by lra. assert (E1 : 1.0 = 1) by lra.
  rewrite E4, E1. clear E4 E1.
  pose proof (pos_INR family_size) as Hn.
  set (n := INR family_size) in *.
  assert (Hq : 0 < 4 / (n + 1)).
  { apply Rmult_lt_0_compat; [lra|apply Rinv_0_lt_compat; lra]. }
  assert (Hqn : 4 / (n + 1) * n < 4).
  { replace (4 / (n + 1) * n) with (4 - 4 / (n + 1)) by (field; lra).
    lra. }
  split; [|split; [|split; [|split; [|split]]]].
  - unfold Rmin. destruct (Rle_dec (4 / (n + 1)) 0.2); lra.
  - unfold Rmin. destruct (Rle_dec (4 / (n + 1)) 0.2) as [Hle|Hgt];
      [exact Hqn|].
    assert (0.2 * n <= 4 / (n + 1) * n)
      by (apply Rmult_le_compat_r; lra).
    lra.
  - intros H19. apply Rmin_right.
    assert (n <= 19).
    { unfold n. replace 19 with (INR 19) by (simpl; lra).
      apply le_INR, H19. }
    apply Rmult_le_reg_r with (n + 1); [lra|].
    replace (4 / (n + 1) * (n + 1)) with 4 by (field; lra). lra.
  - intros H. apply Nat.ltb_lt in H. rewrite H. reflexivity.
  - intros H. apply Nat.ltb_ge in H. rewrite H. reflexivity.
  - intros H. destruct (Rlt_dec given 0); [lra|]. split; reflexivity.
Qed.

Section DrawBorderThenFillKeys.

Variable Body : Type.
Variable Data : Type.
Variable data : Body -> Data.
Variable set_data : Body -> Data -> Body.
Variable pointwise_become_partial : Body -> Body -> R -> R -> Body.
Variable interpolate_body : Body -> Body -> Body -> R -> Body.

Lemma init_sm_to_index_lookup (family : list (VMobject Body)) (h : Z) :
  init_sm_to_index Body family !! h
  = if decide (h ∈ hash <$> family) then Some 0%Z else None.
Proof.
  unfold init_sm_to_index. destruct (decide (h ∈ hash <$> family)) as [Hin|Hnot].
  - apply list_elem_of_fmap in Hin as (sm & -> & Hin).
    apply elem_of_list_to_map_1'.
    + intros y Hy. apply list_elem_of_fmap in Hy as (sm' & [= _ ->] & _).
      reflexivity.
    + apply list_elem_of_fmap. exists sm. split; [reflexivity|exact Hin].
  - apply not_elem_of_list_to_map_1. rewrite <- list_fmap_compose.
    exact Hnot.
Qed.

(** X9.  The dictionary built at construction maps the hash of every
    family member to 0, so the first frame of the second half swaps its
    data.  For a submobject that was not in the family at construction the
    first half still works, the dictionary not being consulted, and the
    first frame of the second half raises KeyError. *)
Theorem DrawBorderThenFill_keys
    (family : list (VMobject Body)) (submob start outline : VMobject Body)
    (alpha : R) :
  0 <= alpha <= 1 ->
  (submob ∈ family ->
   init_sm_to_index Body family !! hash submob = Some 0%Z
   /\ is_Some (interpolate_submobject Body Data data set_data
                 pointwise_become_partial interpolate_body
                 (init_sm_to_index Body family) submob start outline alpha))
  /\ (hash submob ∉ hash <$> family ->
      (alpha < 0.5 ->
       is_Some (interpolate_submobject Body Data data set_data
                  pointwise_become_partial interpolate_body
                  (init_sm_to_index Body family) submob start outline alpha))
      /\ (0.5 <= alpha ->
          interpolate_submobject Body Data data set_data
            pointwise_become_partial interpolate_body
            (init_sm_to_index Body family) submob start outline alpha
          = None)).
Proof.
  intros Ha. split.
  - intros Hin.
    assert (Hd : init_sm_to_index Body family !! hash submob = Some 0%Z).
    { rewrite init_sm_to_index_lookup. rewrite decide_True; [reflexivity|].
      apply list_elem_of_fmap_2, Hin. }
    split; [exact Hd|].
    destruct (Rlt_dec alpha 0.5).
    + rewrite interpolate_submobject_first_half by lra. eexists; reflexivity.
    + rewrite interpolate_submobject_crossing by (try lra; exact Hd).
      eexists; reflexivity.
  - intros Hnot. split.
    + intros Hlt. rewrite interpolate_submobject_first_half by lra.
      eexists; reflexivity.
    + intros Hge. unfold interpolate_submobject.
      rewrite (integer_interpolate_second_half alpha) by lra. simpl.
      rewrite init_sm_to_index_lookup, decide_False by exact Hnot.
      reflexivity.
Qed.

End DrawBorderThenFillKeys.

Lemma DrawBorderThenFill_keys_witness :
  0 <= 0.75 <= 1
  /\ demo_interpolate_submobject (init_sm_to_index (list op) [demo_sm])
       demo_start demo_start demo_outline 0.75 = None.
Proof.
  assert (H : 0 <= 0.75 <= 1) by lra.
  split; [exact H|].
  apply (DrawBorderThenFill_keys (list op) (list op)
           (fun b => b) (fun b _ => SetData :: b)
           (fun b _ lower upper => PartialOf lower upper :: b)
           (fun b _ _ subalpha => InterpolateAt subalpha :: b)
           [demo_sm] demo_start demo_start demo_outline 0.75 H).
  - simpl. intros Hin. apply list_elem_of_singleton in Hin. discriminate Hin.
  - lra.
Defined.

(** X10.  What [ShowIncreasingSubsets] shows is always a prefix of the
    children: for indices [0 <= i <= j] the first [i] children (all of them
    once [i] passes their number), and what is shown at [i] is a prefix of
    what is shown at [j]. *)
Theorem ShowIncreasingSubsets_shows_prefix
    (Mobject : Type) (all_submobs : list Mobject) (i j : Z) :
  (0 <= i <= j)%Z ->
  exists shown_i shown_j : list Mobject,
    ShowIncreasingSubsets_update_submobject_list Mobject all_submobs i
    = Some shown_i
    /\ ShowIncreasingSubsets_update_submobject_list Mobject all_submobs j
       = Some shown_j
    /\ shown_i `prefix_of` shown_j
    /\ shown_j `prefix_of` all_submobs
    /\ length shown_i = Nat.min (Z.to_nat i) (length all_submobs).
Proof.
  intros [Hi Hij].
  unfold ShowIncreasingSubsets_update_submobject_list, slice_to.
  destruct (Z.leb_spec 0 i); [|lia]. destruct (Z.leb_spec 0 j); [|lia].
  eexists _, _. split; [reflexivity|]. split; [reflexivity|].
  split; [|split].
  - replace (take (Z.to_nat i) all_submobs)
      with (take (Z.to_nat i) (take (Z.to_nat j) all_submobs)).
    + apply prefix_take.
    + rewrite take_take. f_equal. lia.
  - apply prefix_take.
  - apply length_take.
Qed.

Lemma ShowIncreasingSubsets_shows_prefix_witness :
  exists shown_i shown_j : list string,
    ShowIncreasingSubsets_update_submobject_list string
      ["a"; "b"; "c"]%string 1 = Some shown_i
    /\ ShowIncreasingSubsets_update_submobject_list string
         ["a"; "b"; "c"]%string 2 = Some shown_j
    /\ shown_i `prefix_of` shown_j.
Proof.
  destruct (ShowIncreasingSubsets_shows_prefix string
              ["a"; "b"; "c"]%string 1 2 ltac:(lia))
    as (l1 & l2 & E1 & E2 & Hp & _).
  exists l1, l2. repeat split; assumption.
Defined.

(** X11.  A negative index, which a rate function that dips below 0 can
    produce, is not clamped by [ShowIncreasingSubsets]: the slice
    [all_submobs[:index]] then drops the last [-index] children and shows
    the others. *)
Theorem ShowIncreasingSubsets_negative_index
    (Mobject : Type) (all_submobs : list Mobject) (index : Z) :
  (index < 0)%Z ->
  exists shown : list Mobject,
    ShowIncreasingSubsets_update_submobject_list Mobject all_submobs index
    = Some shown
    /\ shown = take (length all_submobs - Z.to_nat (- index)) all_submobs
    /\ ((- index <= Z.of_nat (length all_submobs))%Z ->
        (length shown + Z.to_nat (- index) = length all_submobs)%nat).
Proof.
  intros Hneg.
  unfold ShowIncreasingSubsets_update_submobject_list, slice_to.
  destruct (Z.leb_spec 0 index); [lia|].
  eexists. split; [reflexivity|]. split.
  - f_equal. lia.
  - intros Hle. rewrite length_take. lia.
Qed.

Lemma ShowIncreasingSubsets_negative_index_witness :
  (-1 < 0)%Z
  /\ ShowIncreasingSubsets_update_submobject_list string
       ["a"; "b"; "c"]%string (-1) = Some ["a"; "b"]%string.
Proof.
  assert (H : (-1 < 0)%Z) by lia.
  split; [exact H|].
  destruct (ShowIncreasingSubsets_negative_index string
              ["a"; "b"; "c"]%string (-1) H) as (shown & E & -> & _).
  exact E.
Defined.

Lemma py_int_IZR (z : Z) : py_int (IZR z) = z.
Proof.
  unfold py_int. destruct (Rle_dec 0 (IZR z)).
  - apply ZfloorZ.
  - apply Zceil_eq. lra.
Qed.

(** X22.  Which child [ShowSubmobjectsOneByOne] hands to
    [set_submobjects], by the index it is called with, on a group of [n]
    children: nothing for an index of 0 or less; child [index - 1] for an
    index from 1 to [n - 1]; the child before the last for every index from
    [n - 1] on.  Hence a group of one child never shows it, whatever the
    rate function, the rounding function and [alpha]; and with the ceiling,
    a frame where the rate function is 0 shows nothing, and a frame where
    it is 1 shows the child before the last. *)
Theorem ShowSubmobjectsOneByOne_index_table
    (Mobject : Type) (all_submobs : list Mobject) (index : Z) :
  (1 <= length all_submobs)%nat ->
  let n := length all_submobs in
  let shown :=
    ShowSubmobjectsOneByOne_update_submobject_list Mobject all_submobs index in
  ((index <= 0)%Z -> shown = Some [])
  /\ (forall (c : nat) (x : Mobject),
        all_submobs !! c = Some x -> (S c < n)%nat ->
        index = Z.of_nat (S c) ->
        shown = Some [x])
  /\ (forall x : Mobject,
        all_submobs !! (n - 2)%nat = Some x -> (2 <= n)%nat ->
        (Z.of_nat n - 1 <= index)%Z ->
        shown = Some [x])
  /\ (n = 1%nat ->
      forall (rate_func int_func : R -> R) (alpha : R),
        ShowSubmobjectsOneByOne_interpolate_mobject Mobject
          rate_func int_func all_submobs alpha = Some [])
  /\ (forall (rate_func : R -> R) (alpha : R),
        rate_func alpha = 0 ->
        ShowSubmobjectsOneByOne_interpolate_mobject Mobject
          rate_func np_ceil all_submobs alpha = Some [])
  /\ (forall (rate_func : R -> R) (alpha : R) (x : Mobject),
        rate_func alpha = 1 ->
        all_submobs !! (n - 2)%nat = Some x -> (2 <= n)%nat ->
        ShowSubmobjectsOneByOne_interpolate_mobject Mobject
          rate_func np_ceil all_submobs alpha = Some [x]).
Proof.
  intros Hn n shown.
  assert (Hlow : forall i : Z, (i <= 0)%Z ->
            ShowSubmobjectsOneByOne_update_submobject_list Mobject
              all_submobs i = Some []).
  { intros i Hi.
    unfold ShowSubmobjectsOneByOne_update_submobject_list, clip_int. fold n.
    destruct (Z.ltb_spec i 0); [reflexivity|].
    destruct (Z.ltb_spec (Z.of_nat n - 1) i); [lia|].
    replace i with 0%Z by lia. reflexivity. }
  assert (Hhigh : forall (i : Z) (x : Mobject),
            all_submobs !! (n - 2)%nat = Some x -> (2 <= n)%nat ->
            (Z.of_nat n - 1 <= i)%Z ->
            ShowSubmobjectsOneByOne_update_submobject_list Mobject
              all_submobs i = Some [x]).
  { intros i x Hx Hn2 Hi.
    unfold ShowSubmobjectsOneByOne_update_submobject_list, clip_int. fold n.
    destruct (Z.ltb_spec i 0); [lia|].
    assert (Hclip : (if (Z.of_nat n - 1 <? i)%Z then (Z.of_nat n - 1)%Z else i)
                    = (Z.of_nat n - 1)%Z).
    { destruct (Z.ltb_spec (Z.of_nat n - 1) i); lia. }
    rewrite Hclip.
    destruct (Z.eqb_spec (Z.of_nat n - 1) 0); [lia|].
    unfold getitem. destruct (Z.leb_spec 0 (Z.of_nat n - 1 - 1)); [|lia].
    replace (Z.to_nat (Z.of_nat n - 1 - 1)) with (n - 2)%nat by lia.
    rewrite Hx. reflexivity. }
  split; [exact (Hlow index)|]. split; [|split; [|split; [|split]]].
  - intros c x Hx Hcn Hi. unfold shown. rewrite Hi.
    unfold ShowSubmobjectsOneByOne_update_submobject_list, clip_int. fold n.
    destruct (Z.ltb_spec (Z.of_nat (S c)) 0); [lia|].
    destruct (Z.ltb_spec (Z.of_nat n - 1) (Z.of_nat (S c))); [lia|].
    destruct (Z.eqb_spec (Z.of_nat (S c)) 0); [lia|].
    unfold getitem. destruct (Z.leb_spec 0 (Z.of_nat (S c) - 1)); [|lia].
    replace (Z.to_nat (Z.of_nat (S c) - 1)) with c by lia.
    rewrite Hx. reflexivity.
  - exact (Hhigh index).
  - intros H1 rate_func int_func alpha.
    unfold ShowSubmobjectsOneByOne_interpolate_mobject, interpolate_mobject.
    unfold ShowSubmobjectsOneByOne_update_submobject_list, clip_int. fold n.
    rewrite H1. change (Z.of_nat 1 - 1)%Z with 0%Z.
    set (i := py_int _).
    destruct (Z.ltb_spec i 0); [reflexivity|].
    destruct (Z.ltb_spec 0 i); [reflexivity|].
    replace i with 0%Z by lia. reflexivity.
  - intros rate_func alpha H0.
    unfold ShowSubmobjectsOneByOne_interpolate_mobject, interpolate_mobject,
      np_ceil.
    rewrite H0, Rmult_0_l, py_int_IZR.
    apply Hlow. rewrite (Zceil_eq 0 0); [lia|simpl; lra].
  - intros rate_func alpha x H1 Hx Hn2.
    unfold ShowSubmobjectsOneByOne_interpolate_mobject, interpolate_mobject,
      np_ceil.
    rewrite H1, Rmult_1_l, py_int_IZR.
    apply (Hhigh _ x Hx Hn2).
    rewrite (Zceil_eq (Z.of_nat n) (INR (length all_submobs))).
    + lia.
    + rewrite <- INR_IZR_INZ. fold n. lra.
Qed.

Lemma ShowSubmobjectsOneByOne_index_table_witness :
  (1 <= length ["a"; "b"; "c"]%string)%nat
  /\ ShowSubmobjectsOneByOne_update_submobject_list string
       ["a"; "b"; "c"]%string 1 = Some ["a"%string]
  /\ ShowSubmobjectsOneByOne_update_submobject_list string
       ["a"; "b"; "c"]%string 2 = Some ["b"%string]
  /\ ShowSubmobjectsOneByOne_update_submobject_list string
       ["a"; "b"; "c"]%string 3 = Some ["b"%string]
  /\ ShowSubmobjectsOneByOne_interpolate_mobject string
       RateFunctions.linear np_ceil ["a"]%string 1 = Some [].
Proof.
  assert (H : (1 <= length ["a"; "b"; "c"]%string)%nat) by (simpl; lia).
  assert (H1 : (1 <= length ["a"]%string)%nat) by (simpl; lia).
  split; [exact H|]. split; [|split; [|split]].
  - exact (proj1 (proj2 (ShowSubmobjectsOneByOne_index_table string
                           ["a"; "b"; "c"]%string 1 H))
             0%nat "a"%string eq_refl ltac:(simpl; lia) eq_refl).
  - exact (proj1 (proj2 (ShowSubmobjectsOneByOne_index_table string
                           ["a"; "b"; "c"]%string 2 H))
             1%nat "b"%string eq_refl ltac:(simpl; lia) eq_refl).
  - exact (proj1 (proj2 (proj2 (ShowSubmobjectsOneByOne_index_table string
                                  ["a"; "b"; "c"]%string 3 H)))
             "b"%string eq_refl ltac:(simpl; lia) ltac:(simpl; lia)).
  - exact (proj1 (proj2 (proj2 (proj2
             (ShowSubmobjectsOneByOne_index_table string
                ["a"]%string 0 H1))))
             eq_refl RateFunctions.linear np_ceil 1).
Defined.

(** X23.  With a rate function and a rounding function that never decrease,
    [ShowIncreasingSubsets] lives up to its name: from a frame on which the
    index is not negative, a later frame shows everything the earlier one
    showed, and possibly more children after them. *)
Theorem ShowIncreasingSubsets_grows
    (Mobject : Type) (rate_func int_func : R -> R)
    (all_submobs : list Mobject) (a b : R) :
  (forall x y, x <= y -> rate_func x <= rate_func y) ->
  (forall x y, x <= y -> int_func x <= int_func y) ->
  a <= b ->
  0 <= int_func (rate_func a * INR (length all_submobs)) ->
  exists shown_a shown_b : list Mobject,
    interpolate_mobject Mobject rate_func int_func
      (ShowIncreasingSubsets_update_submobject_list Mobject) all_submobs a
    = Some shown_a
    /\ interpolate_mobject Mobject rate_func int_func
         (ShowIncreasingSubsets_update_submobject_list Mobject) all_submobs b
       = Some shown_b
    /\ shown_a `prefix_of` shown_b
    /\ shown_b `prefix_of` all_submobs.
Proof.
  intros Hrate Hint Hab H0.
  unfold interpolate_mobject, ShowIncreasingSubsets_update_submobject_list.
  set (n := INR (length all_submobs)) in *.
  assert (Hn : 0 <= n) by apply pos_INR.
  assert (Hx : int_func (rate_func a * n) <= int_func (rate_func b * n)).
  { apply Hint. apply Rmult_le_compat_r; [exact Hn|apply Hrate, Hab]. }
  set (xa := int_func (rate_func a * n)) in *.
  set (xb := int_func (rate_func b * n)) in *.
  assert (Hia : (0 <= py_int xa)%Z).
  { unfold py_int. destruct (Rle_dec 0 xa); [|contradiction].
    apply Zfloor_lub. exact H0. }
  assert (Hib : (py_int xa <= py_int xb)%Z).
  { unfold py_int.
    destruct (Rle_dec 0 xa); [|contradiction].
    destruct (Rle_dec 0 xb); [|lra].
    apply Zfloor_le, Hx. }
  set (ia := py_int xa) in *.
  set (ib := py_int xb) in *.
  unfold slice_to.
  destruct (Z.leb_spec 0 ia); [|lia]. destruct (Z.leb_spec 0 ib); [|lia].
  eexists _, _. split; [reflexivity|]. split; [reflexivity|].
  split; [|apply prefix_take].
  replace (take (Z.to_nat ia) all_submobs)
    with (take (Z.to_nat ia) (take (Z.to_nat ib) all_submobs)).
  - apply prefix_take.
  - rewrite take_take. f_equal. lia.
Qed.

Lemma np_ceil_le (x y : R) : x <= y -> np_ceil x <= np_ceil y.
Proof. intros H. unfold np_ceil. apply IZR_le, Zceil_le, H. Qed.

Lemma ShowIncreasingSubsets_grows_witness :
  0.25 <= 0.75
  /\ exists shown_a shown_b : list string,
       interpolate_mobject string RateFunctions.linear np_ceil
         (ShowIncreasingSubsets_update_submobject_list string)
         ["a"; "b"; "c"]%string 0.25 = Some shown_a
       /\ interpolate_mobject string RateFunctions.linear np_ceil
            (ShowIncreasingSubsets_update_submobject_list string)
            ["a"; "b"; "c"]%string 0.75 = Some shown_b
       /\ shown_a `prefix_of` shown_b.
Proof.
  assert (Hab : 0.25 <= 0.75) by lra.
  split; [exact Hab|].
  destruct (ShowIncreasingSubsets_grows string RateFunctions.linear np_ceil
              ["a"; "b"; "c"]%string 0.25 0.75
              (fun x y H => H) np_ceil_le Hab)
    as (la & lb & Ea & Eb & Hp & _).
  - unfold np_ceil, RateFunctions.linear.
    apply IZR_le. apply le_IZR.
    pose proof (Zceil_bound (0.25 * INR (length ["a"; "b"; "c"]%string))).
    simpl in *. lra.
  - exists la, lb. repeat split; assumption.
Defined.

(** The default rate function of [Uncreate]. *)
Definition Uncreate_default_rate_func (t : R) : R :=
  RateFunctions.smooth (1 - t).

(** X24.  Under its default rate function an [Uncreate] starts from the
    complete path, ends with the empty path, and never shows again what it
    has hidden: the upper bound only goes down as time goes on. *)
Theorem Uncreate_hides_steadily (s t : R) :
  s <= t ->
  snd (ShowCreation_get_bounds (Uncreate_default_rate_func t))
  <= snd (ShowCreation_get_bounds (Uncreate_default_rate_func s))
  /\ ShowCreation_get_bounds (Uncreate_default_rate_func 0) = (0, 1)
  /\ ShowCreation_get_bounds (Uncreate_default_rate_func 1) = (0, 0).
Proof.
  intros H. unfold ShowCreation_get_bounds, Uncreate_default_rate_func. simpl.
  split; [apply RateFunctions.smooth_le; lra|]. split; f_equal.
  - replace (1 - 0) with 1 by lra. apply RateFunctions.smooth_1.
  - replace (1 - 1) with 0 by lra. apply RateFunctions.smooth_0.
Qed.

Lemma Uncreate_hides_steadily_witness :
  0.25 <= 0.75
  /\ snd (ShowCreation_get_bounds (Uncreate_default_rate_func 0.75))
     <= snd (ShowCreation_get_bounds (Uncreate_default_rate_func 0.25)).
Proof.
  assert (H : 0.25 <= 0.75) by lra.
  split; [exact H|]. exact (proj1 (Uncreate_hides_steadily 0.25 0.75 H)).
Defined.

End Creation.

(** ** manimlib/animation/transform.py *)

Module TransformAnimation.
Import Python.

(** Objects live in a store and are named by their location, so that two
    attributes can hold the same object. *)
Abbreviation loc := nat.

(** [Transform] and its attributes.  [None] is Python's [None], also for an
    attribute that has not been assigned yet. *)
Record Transform : Type := {
  class_name : string;
  mobject : loc;
  target_mobject : option loc;
  target_copy : option loc;
  starting_mobject : option loc;
}.

Definition set_target_mobject (a : Transform) (t : option loc) : Transform :=
  {| class_name := class_name a; mobject := mobject a;
     target_mobject := t; target_copy := target_copy a;
     starting_mobject := starting_mobject a |}.

Definition set_target_copy (a : Transform) (t : option loc) : Transform :=
  {| class_name := class_name a; mobject := mobject a;
     target_mobject := target_mobject a; target_copy := t;
     starting_mobject := starting_mobject a |}.

Definition set_starting_mobject (a : Transform) (t : option loc) : Transform :=
  {| class_name := class_name a; mobject := mobject a;
     target_mobject := target_mobject a; target_copy := target_copy a;
     starting_mobject := t |}.

(** [Transform.__init__]: the attributes are stored; [create_target] is not
    called and the store is not touched. *)
Definition Transform_init (cls : string) (mob : loc) (target : option loc)
  : Transform :=
  {| class_name := cls; mobject := mob; target_mobject := target;
     target_copy := None; starting_mobject := None |}.

(** [Transform.check_target_mobject_validity]: the exception it raises, or
    [None] when it returns. *)
Definition check_target_mobject_validity (a : Transform) : option exn :=
  match target_mobject a with
  | None =>
      Some (Exception (class_name a ++ ".create_target not properly implemented"))
  | Some _ => None
  end.

(** [FadeTransform] (manimlib/animation/fading.py), a subclass of
    [Transform] with attributes of its own. *)
Record FadeTransform : Type := {
  as_Transform : Transform;
  to_add_on_completion : loc;
  stretch : bool;
  dim_to_match : Z;
  ending_mobject : option loc;
}.

Definition set_ending_mobject (a : FadeTransform) (e : option loc)
  : FadeTransform :=
  {| as_Transform := as_Transform a;
     to_add_on_completion := to_add_on_completion a;
     stretch := stretch a; dim_to_match := dim_to_match a;
     ending_mobject := e |}.

Definition set_as_Transform (a : FadeTransform) (t : Transform)
  : FadeTransform :=
  {| as_Transform := t;
     to_add_on_completion := to_add_on_completion a;
     stretch := stretch a; dim_to_match := dim_to_match a;
     ending_mobject := ending_mobject a |}.

(** [FadeTransform.__init__], with [group] the object that
    [Group(mobject, target_mobject.copy())] creates: [Transform.__init__]
    receives the group and no [target_mobject], whose default is [None]. *)
Definition FadeTransform_init (cls : string) (group target : loc)
    (stretch : bool) (dim_to_match : Z) : FadeTransform :=
  {| as_Transform := Transform_init cls group None;
     to_add_on_completion := target;
     stretch := stretch; dim_to_match := dim_to_match;
     ending_mobject := None |}.

Definition FadeTransform_default_stretch : bool := true.
Definition FadeTransform_default_dim_to_match : Z := 1.

Definition IndexError : exn := Exception "IndexError".

Section Begin.

(** The value of a mobject: its whole family, with the data of each member.
    The methods of [Mobject] and [Animation.begin] are defined outside the
    sources at hand.  Each is a function of the objects it is called with,
    and it mutates the objects that appear in its result:
    [align_data_and_family] the receiver and its argument, [Animation.begin]
    the animation's mobject (it also creates the starting mobject, and reads
    the target copy when it interpolates at 0), [lock_matching_data] the
    receiver. *)
Variable Mobject : Type.
Variable is_aligned_with : Mobject -> Mobject -> bool.
Variable copy : Mobject -> Mobject.
Variable align_data_and_family : Mobject -> Mobject -> Mobject * Mobject.
Variable Animation_begin : Mobject -> Mobject -> Mobject * Mobject.
Variable has_updaters : Mobject -> bool.
Variable lock_matching_data : Mobject -> Mobject -> Mobject -> Mobject.

Local Abbreviation store := (gmap loc Mobject).

(** The [create_target] of the class at hand: the object it returns
    ([None] for Python's [None]) and the store it leaves. *)
Variable create_target : Transform -> store -> option loc * store.

(** [Transform.create_target], the method of the base class. *)
Definition Transform_create_target (a : Transform) (s : store)
  : option loc * store :=
  (target_mobject a, s).

(** A new object. *)
Definition alloc (v : Mobject) (s : store) : loc * store :=
  let l := fresh (dom s) in (l, <[l := v]> s).

Inductive outcome : Type :=
  | Returned (a : Transform) (s : store)
  | Raised (e : exn) (a : Transform) (s : store).

(** An attribute of [None], or of an object that is not in the store. *)
Definition AttributeError : exn := Exception "AttributeError".

(** [Transform.begin] *)
Definition begin (a : Transform) (s : store) : outcome :=
  let '(target, s) := create_target a s in
  let a := set_target_mobject a target in
  match check_target_mobject_validity a with
  | Some e => Raised e a s
  | None =>
    match target_mobject a with
    | None => Raised AttributeError a s
    | Some t =>
      match s !! mobject a, s !! t with
      | Some vm, Some vt =>
        let '(tc, s) :=
          if is_aligned_with vm vt then (t, s)
          else
            (* Use a copy of target_mobject for the align_data_and_family
               call so that the actual target_mobject stays preserved *)
            alloc (copy vt) s in
        let a := set_target_copy a (Some tc) in
        match s !! tc with
        | None => Raised AttributeError a s
        | Some vtc =>
          let '(vm, vtc) := align_data_and_family vm vtc in
          let s := <[tc := vtc]> (<[mobject a := vm]> s) in
          (* super().begin() *)
          match s !! mobject a, s !! tc with
          | Some vm, Some vtc =>
            let '(vm, vstart) := Animation_begin vm vtc in
            let s := <[mobject a := vm]> s in
            let '(st, s) := alloc vstart s in
            let a := set_starting_mobject a (Some st) in
            if has_updaters vm then Returned a s
            else
              match s !! tc with
              | None => Raised AttributeError a s
              | Some vtc =>
                  Returned a
                    (<[mobject a := lock_matching_data vm vstart vtc]> s)
              end
          | _, _ => Raised AttributeError a s
          end
        end
      | _, _ => Raised AttributeError a s
      end
    end
  end.

(** The methods of [Mobject] that [FadeTransform] calls, defined outside
    the sources at hand: the subscript [m[i]] on a group ([None] when it
    raises IndexError), the group after its [i]-th member has been mutated
    to a new value, and [replace], [get_uniforms], [set_uniform],
    [set_opacity] and [align_family], each mutating its receiver
    ([align_family] its argument too). *)
Variable submobject : Mobject -> nat -> option Mobject.
Variable set_submobject : Mobject -> nat -> Mobject -> Mobject.
Variable Uniforms : Type.
Variable replace : Mobject -> Mobject -> bool -> Z -> Mobject.
Variable get_uniforms : Mobject -> Uniforms.
Variable set_uniform : Mobject -> Uniforms -> Mobject.
Variable set_opacity : Mobject -> R -> Mobject.
Variable align_family : Mobject -> Mobject -> Mobject * Mobject.

(** [FadeTransform.ghost_to]: the value of [source] after the call. *)
Definition FadeTransform_ghost_to (self : FadeTransform)
    (source target : Mobject) : Mobject :=
  let source := replace source target (stretch self) (dim_to_match self) in
  let source := set_uniform source (get_uniforms target) in
  set_opacity source 0.

(** The [ghost_to] of the class at hand. *)
Variable ghost_to : FadeTransform -> Mobject -> Mobject -> Mobject.

(** [FadeTransform.begin].  It does not go through [Transform.begin]:
    [Animation.begin] is called directly, here on the animated group and
    the ending mobject, which takes the place of the target copy in
    [get_all_mobjects].  The result is the exception raised, or the
    animation and the store that the call leaves. *)
Definition FadeTransform_begin (a : FadeTransform) (s : store)
  : exn + FadeTransform * store :=
  match s !! mobject (as_Transform a) with
  | None => inl AttributeError
  | Some vm =>
      (* self.ending_mobject = self.mobject.copy() *)
      let vend := copy vm in
      let '(e, s) := alloc vend s in
      let a := set_ending_mobject a (Some e) in
      (* Animation.begin(self) *)
      let '(vm, vstart) := Animation_begin vm vend in
      let s := <[mobject (as_Transform a) := vm]> s in
      let '(st, s) := alloc vstart s in
      let a :=
        set_as_Transform a (set_starting_mobject (as_Transform a) (Some st)) in
      (* for m0, m1 in ((start[1], start[0]), (end[0], end[1])) *)
      match submobject vstart 1, submobject vstart 0,
            submobject vend 0, submobject vend 1 with
      | Some start1, Some start0, Some end0, Some end1 =>
          let vstart := set_submobject vstart 1 (ghost_to a start1 start0) in
          let vend := set_submobject vend 0 (ghost_to a end0 end1) in
          inr (a, <[e := vend]> (<[st := vstart]> s))
      | _, _, _, _ => inl IndexError
      end
  end.

(** [FadeTransformPieces.begin] *)
Definition FadeTransformPieces_begin (a : FadeTransform) (s : store)
  : exn + FadeTransform * store :=
  match s !! mobject (as_Transform a) with
  | None => inl AttributeError
  | Some vm =>
      match submobject vm 0, submobject vm 1 with
      | Some m0, Some m1 =>
          (* self.mobject[0].align_family(self.mobject[1]) *)
          let '(m0, m1) := align_family m0 m1 in
          let vm := set_submobject (set_submobject vm 0 m0) 1 m1 in
          (* super().begin() *)
          FadeTransform_begin a (<[mobject (as_Transform a) := vm]> s)
      | _, _ => inl IndexError
      end
  end.

Lemma alloc_fresh (v : Mobject) (s : store) (l : loc) :
  is_Some (s !! l) -> (alloc v s).1 <> l.
Proof.
  intros Hl E. unfold alloc in E. simpl in E.
  apply (is_fresh (dom s)). rewrite E. apply elem_of_dom. exact Hl.
Qed.

Lemma alloc_fresh_None (v : Mobject) (s : store) :
  s !! (alloc v s).1 = None.
Proof.
  unfold alloc. simpl. apply not_elem_of_dom. apply is_fresh.
Qed.

(** The check passes exactly when [create_target] produced an object. *)
Lemma check_target_mobject_validity_passes (a : Transform) (t : option loc) :
  check_target_mobject_validity (set_target_mobject a t) = None
  <-> t <> None.
Proof.
  unfold check_target_mobject_validity. simpl.
  destruct t; split; intros H; congruence.
Qed.

(** When [create_target] yields [None], [Transform.begin] raises the
    exception that names the class, with the store exactly as
    [create_target] left it. *)
Lemma begin_without_target (a : Transform) (s s1 : store) :
  create_target a s = (None, s1) ->
  begin a s
  = Raised
      (Exception (class_name a ++ ".create_target not properly implemented"))
      (set_target_mobject a None) s1.
Proof.
  intros H. unfold begin. rewrite H. reflexivity.
Qed.

(** [FadeTransform.begin] assigns [ending_mobject] and [starting_mobject]
    and nothing else: the [target_mobject], the class and the animated
    group are what they were. *)
Lemma FadeTransform_begin_keeps_target (f f' : FadeTransform) (s s' : store) :
  FadeTransform_begin f s = inr (f', s') ->
  target_mobject (as_Transform f') = target_mobject (as_Transform f)
  /\ class_name (as_Transform f') = class_name (as_Transform f)
  /\ mobject (as_Transform f') = mobject (as_Transform f).
Proof.
  unfold FadeTransform_begin.
  destruct (s !! mobject (as_Transform f)) as [vm|]; [|discriminate].
  unfold alloc. simpl.
  destruct (Animation_begin vm (copy vm)) as [vm1 vstart]. simpl.
  destruct (submobject vstart 1); [|discriminate].
  destruct (submobject vstart 0); [|discriminate].
  destruct (submobject (copy vm) 0); [|discriminate].
  destruct (submobject (copy vm) 1); [|discriminate].
  intros [= <- _]. simpl. split; [|split]; reflexivity.
Qed.

Lemma FadeTransformPieces_begin_keeps_target
    (f f' : FadeTransform) (s s' : store) :
  FadeTransformPieces_begin f s = inr (f', s') ->
  target_mobject (as_Transform f') = target_mobject (as_Transform f)
  /\ class_name (as_Transform f') = class_name (as_Transform f)
  /\ mobject (as_Transform f') = mobject (as_Transform f).
Proof.
  unfold FadeTransformPieces_begin.
  destruct (s !! mobject (as_Transform f)) as [vm|]; [|discriminate].
  destruct (submobject vm 0) as [m0|]; [|discriminate].
  destruct (submobject vm 1) as [m1|]; [|discriminate].
  destruct (align_family m0 m1) as [m0' m1'].
  apply FadeTransform_begin_keeps_target.
Qed.

(** [FadeTransform.begin] returns as soon as the animated group is an
    object of the store and it, its copy and its snapshot have the two
    members that the subscripts ask for. *)
Lemma FadeTransform_begin_returns (f : FadeTransform) (s : store)
    (vm : Mobject) :
  s !! mobject (as_Transform f) = Some vm ->
  (forall i : nat, (i < 2)%nat ->
     is_Some (submobject (copy vm) i)
     /\ is_Some (submobject (Animation_begin vm (copy vm)).2 i)) ->
  exists (f' : FadeTransform) (s' : store),
    FadeTransform_begin f s = inr (f', s').
Proof.
  intros Hm Hsub. unfold FadeTransform_begin. rewrite Hm.
  unfold alloc. simpl.
  destruct (Hsub 0%nat ltac:(lia)) as [[e0 He0] Hs0].
  destruct (Hsub 1%nat ltac:(lia)) as [[e1 He1] Hs1].
  destruct (Animation_begin vm (copy vm)) as [vm1 vstart]. simpl in *.
  destruct Hs0 as [s0 Hs0]. destruct Hs1 as [s1 Hs1].
  rewrite Hs1, Hs0, He0, He1. eexists _, _. reflexivity.
Qed.

(** C3.  An animation that runs [Transform.begin]: when [create_target]
    yields [None], [begin] raises the exception that names the class.  The
    target it checks is the one resolved at [begin], whatever was given to
    the constructor, and nothing has touched the store since
    [create_target] returned: no alignment, no snapshot, no interpolation.
    [FadeTransform] and [FadeTransformPieces] have a [begin] of their own,
    which resolves and checks no target: whenever it returns, the
    [target_mobject] is what it was, and on an animation as the constructor
    leaves it, over a group of two members, it does return, with
    [target_mobject] still [None]. *)
Theorem Transform_begin_requires_target
    (a : Transform) (s s1 : store) :
  (create_target a s = (None, s1) ->
   begin a s
   = Raised
       (Exception (class_name a ++ ".create_target not properly implemented"))
       (set_target_mobject a None) s1)
  /\ (forall (f f' : FadeTransform) (sf sf' : store),
        FadeTransform_begin f sf = inr (f', sf')
        \/ FadeTransformPieces_begin f sf = inr (f', sf') ->
        target_mobject (as_Transform f') = target_mobject (as_Transform f))
  /\ (forall (cls : string) (group target : loc) (st : bool) (dim : Z)
             (sf : store) (vm : Mobject),
        sf !! group = Some vm ->
        (forall i : nat, (i < 2)%nat ->
           is_Some (submobject (copy vm) i)
           /\ is_Some (submobject (Animation_begin vm (copy vm)).2 i)) ->
        exists (f' : FadeTransform) (sf' : store),
          FadeTransform_begin (FadeTransform_init cls group target st dim) sf
          = inr (f', sf')
          /\ target_mobject (as_Transform f') = None).
Proof.
  split; [|split].
  - apply begin_without_target.
  - intros f f' sf sf' [H|H].
    + apply (FadeTransform_begin_keeps_target _ _ _ _ H).
    + apply (FadeTransformPieces_begin_keeps_target _ _ _ _ H).
  - intros cls group target st dim sf vm Hm Hsub.
    destruct (FadeTransform_begin_returns
                (FadeTransform_init cls group target st dim) sf vm Hm Hsub)
      as (f' & sf' & E).
    exists f', sf'. split; [exact E|].
    apply (FadeTransform_begin_keeps_target _ _ _ _ E).
Qed.

(** C4.  When [create_target] yields an object other than the animated
    mobject, [begin] returns and the caller's target is still the
    [target_mobject].  If the two were not aligned, [target_copy] is a new
    object, alignment has worked on it, and the value of the caller's
    target is what it was.  If they were aligned, [target_copy] is the
    caller's target itself and its value is what [align_data_and_family]
    leaves of it: unchanged, as long as aligning aligned mobjects changes
    nothing. *)
Theorem Transform_begin_preserves_target
    (a : Transform) (s s1 : store) (t : loc) (vm vt : Mobject) :
  create_target a s = (Some t, s1) ->
  s1 !! mobject a = Some vm ->
  s1 !! t = Some vt ->
  t <> mobject a ->
  exists (a' : Transform) (s' : store),
    begin a s = Returned a' s'
    /\ target_mobject a' = Some t
    /\ (is_aligned_with vm vt = false ->
        s' !! t = Some vt
        /\ exists tc : loc,
             target_copy a' = Some tc /\ tc <> t /\ s1 !! tc = None
             /\ s' !! tc = Some (align_data_and_family vm (copy vt)).2)
    /\ (is_aligned_with vm vt = true ->
        target_copy a' = Some t
        /\ s' !! t = Some (align_data_and_family vm vt).2)
    /\ ((forall x y : Mobject,
           is_aligned_with x y = true ->
           (align_data_and_family x y).2 = y) ->
        s' !! t = Some vt).
Proof.
  intros Hct Hm Ht Hne. unfold begin, alloc. rewrite Hct. simpl.
  rewrite Hm, Ht.
  destruct (is_aligned_with vm vt) eqn:Hal.
  - (* aligned: target_copy is the target itself *)
    simpl. rewrite Ht.
    destruct (align_data_and_family vm vt) as [vm1 vt1] eqn:Ealign.
    simpl. rewrite lookup_insert_eq.
    rewrite (lookup_insert_ne _ t (mobject a)) by exact Hne.
    rewrite lookup_insert_eq.
    destruct (Animation_begin vm1 vt1) as [vm2 vstart] eqn:Ebegin.
    set (s4 := <[mobject a := vm2]> (<[t := vt1]> (<[mobject a := vm1]> s1))).
    assert (H4t : s4 !! t = Some vt1).
    { unfold s4. rewrite lookup_insert_ne by congruence.
      apply lookup_insert_eq. }
    pose proof (alloc_fresh vstart s4 t (ex_intro _ _ H4t)) as Hst.
    unfold alloc in Hst. simpl in Hst.
    set (st := fresh (dom s4)) in *.
    set (s5 := <[st := vstart]> s4).
    assert (H5t : s5 !! t = Some vt1).
    { unfold s5. rewrite lookup_insert_ne by exact Hst. exact H4t. }
    assert (Hid : (forall x y : Mobject,
                     is_aligned_with x y = true ->
                     (align_data_and_family x y).2 = y) -> vt1 = vt).
    { intros Hid. specialize (Hid vm vt Hal). rewrite Ealign in Hid.
      exact Hid. }
    simpl. destruct (has_updaters vm2).
    + eexists _, s5. split; [reflexivity|]. simpl.
      split; [reflexivity|]. split; [discriminate|].
      split; [intros _; split; [reflexivity|exact H5t]|].
      intros H. rewrite H5t, (Hid H). reflexivity.
    + rewrite H5t. eexists _, _. split; [reflexivity|]. simpl.
      assert (H6t : <[mobject a := lock_matching_data vm2 vstart vt1]> s5 !! t
                    = Some vt1).
      { rewrite lookup_insert_ne by congruence. exact H5t. }
      split; [reflexivity|]. split; [discriminate|].
      split; [intros _; split; [reflexivity|exact H6t]|].
      intros H. rewrite H6t, (Hid H). reflexivity.
  - (* not aligned: target_copy is a new copy *)
    pose proof (alloc_fresh (copy vt) s1 t (ex_intro _ _ Ht)) as Htc.
    pose proof (alloc_fresh (copy vt) s1 (mobject a) (ex_intro _ _ Hm)) as Htcm.
    pose proof (alloc_fresh_None (copy vt) s1) as Htcn.
    unfold alloc in Htc, Htcm, Htcn. simpl in Htc, Htcm, Htcn.
    simpl. set (tc := fresh (dom s1)) in *.
    rewrite lookup_insert_eq.
    destruct (align_data_and_family vm (copy vt)) as [vm1 vtc1] eqn:Ealign.
    simpl. rewrite (lookup_insert_ne _ tc (mobject a)) by exact Htcm.
    rewrite lookup_insert_eq. rewrite lookup_insert_eq.
    destruct (Animation_begin vm1 vtc1) as [vm2 vstart] eqn:Ebegin.
    set (s4 := <[mobject a := vm2]>
                 (<[tc := vtc1]> (<[mobject a := vm1]> (<[tc := copy vt]> s1)))).
    assert (H4t : s4 !! t = Some vt).
    { unfold s4. rewrite !lookup_insert_ne by congruence. exact Ht. }
    assert (H4tc : s4 !! tc = Some vtc1).
    { unfold s4. rewrite lookup_insert_ne by congruence.
      apply lookup_insert_eq. }
    pose proof (alloc_fresh vstart s4 t (ex_intro _ _ H4t)) as Hst.
    pose proof (alloc_fresh vstart s4 tc (ex_intro _ _ H4tc)) as Hstc.
    unfold alloc in Hst, Hstc. simpl in Hst, Hstc.
    set (st := fresh (dom s4)) in *.
    set (s5 := <[st := vstart]> s4).
    assert (H5t : s5 !! t = Some vt).
    { unfold s5. rewrite lookup_insert_ne by exact Hst. exact H4t. }
    assert (H5tc : s5 !! tc = Some vtc1).
    { unfold s5. rewrite lookup_insert_ne by exact Hstc. exact H4tc. }
    simpl. destruct (has_updaters vm2).
    + eexists _, s5. split; [reflexivity|]. simpl.
      split; [reflexivity|].
      split; [|split; [discriminate|intros _; exact H5t]].
      intros _. split; [exact H5t|].
      exists tc. repeat split; assumption.
    + rewrite H5tc. eexists _, _. split; [reflexivity|]. simpl.
      split; [reflexivity|].
      assert (H6t : <[mobject a := lock_matching_data vm2 vstart vtc1]> s5 !! t
                    = Some vt).
      { rewrite lookup_insert_ne by congruence. exact H5t. }
      split; [|split; [discriminate|intros _; exact H6t]].
      intros _. split; [exact H6t|].
      exists tc. repeat split; try assumption.
      rewrite lookup_insert_ne by congruence. exact H5tc.
Qed.

End Begin.

(** An instance for evaluation: the value of a mobject is its number of
    points; aligning brings both to the larger number. *)
Definition demo_begin :=
  begin nat Nat.eqb (fun v => v)
    (fun v1 v2 => (Nat.max v1 v2, Nat.max v1 v2))
    (fun vm _ => (vm, vm)) (fun _ => false) (fun vm _ _ => vm)
    (Transform_create_target nat).

(** An instance with groups: the value of a mobject is the list of its
    members, each with its number of points and its opacity. *)
Definition demo_submobject (v : list (nat * R)) (i : nat)
  : option (list (nat * R)) :=
  (fun m => [m]) <$> v !! i.

Definition demo_set_submobject (v : list (nat * R)) (i : nat)
    (x : list (nat * R)) : list (nat * R) :=
  match x with
  | [m] => <[i := m]> v
  | _ => v
  end.

Definition demo_replace (source target : list (nat * R)) (stretch : bool)
    (dim_to_match : Z) : list (nat * R) :=
  match target with
  | (n, _) :: _ => (fun m : nat * R => (n, m.2)) <$> source
  | [] => source
  end.

Definition demo_set_opacity (source : list (nat * R)) (o : R)
  : list (nat * R) :=
  (fun m : nat * R => (m.1, o)) <$> source.

Definition demo_ghost_to :=
  FadeTransform_ghost_to (list (nat * R)) unit demo_replace
    (fun _ => tt) (fun source _ => source) demo_set_opacity.

Definition demo_group_begin :=
  begin (list (nat * R)) (fun v1 v2 => Nat.eqb (length v1) (length v2))
    (fun v => v) (fun v1 v2 => (v1, v2)) (fun vm _ => (vm, vm))
    (fun _ => false) (fun vm _ _ => vm)
    (Transform_create_target (list (nat * R))).

Definition demo_FadeTransform_begin :=
  FadeTransform_begin (list (nat * R)) (fun v => v) (fun vm _ => (vm, vm))
    demo_submobject demo_set_submobject demo_ghost_to.

Definition demo_group_store : gmap nat (list (nat * R)) :=
  {[0%nat := [(3%nat, 1); (5%nat, 1)]]}.

Definition demo_FadeTransform : FadeTransform :=
  FadeTransform_init "FadeTransform" 0 1
    FadeTransform_default_stretch FadeTransform_default_dim_to_match.

Lemma demo_group_two_members (i : nat) :
  (i < 2)%nat ->
  is_Some (demo_submobject [(3%nat, 1); (5%nat, 1)] i)
  /\ is_Some (demo_submobject
                ((fun vm _ : list (nat * R) => (vm, vm))
                   [(3%nat, 1); (5%nat, 1)] [(3%nat, 1); (5%nat, 1)]).2 i).
Proof.
  intros Hi. destruct i as [|[|i]]; [| |lia];
    split; eexists; reflexivity.
Qed.

Lemma Transform_begin_requires_target_witness :
  (Transform_create_target (list (nat * R))
     (Transform_init "Transform" 0 None) demo_group_store
   = (None, demo_group_store)
   /\ demo_group_begin (Transform_init "Transform" 0 None) demo_group_store
      = Raised (list (nat * R))
          (Exception "Transform.create_target not properly implemented")
          (Transform_init "Transform" 0 None) demo_group_store)
  /\ exists f' s',
       demo_FadeTransform_begin demo_FadeTransform demo_group_store
       = inr (f', s')
       /\ target_mobject (as_Transform f') = None.
Proof.
  destruct (Transform_begin_requires_target (list (nat * R))
              (fun v1 v2 => Nat.eqb (length v1) (length v2))
              (fun v => v) (fun v1 v2 => (v1, v2)) (fun vm _ => (vm, vm))
              (fun _ => false) (fun vm _ _ => vm)
              (Transform_create_target (list (nat * R)))
              demo_submobject demo_set_submobject (fun m0 m1 => (m0, m1))
              demo_ghost_to
              (Transform_init "Transform" 0 None)
              demo_group_store demo_group_store)
    as (Hraise & _ & Hfade).
  split.
  - split; [reflexivity|]. exact (Hraise eq_refl).
  - exact (Hfade "FadeTransform"%string 0%nat 1%nat
             FadeTransform_default_stretch FadeTransform_default_dim_to_match
             demo_group_store [(3%nat, 1); (5%nat, 1)]
             eq_refl demo_group_two_members).
Defined.

(** The claim as it was made, refuted on a [FadeTransform] as its
    constructor leaves it, over a group of two members: [create_target],
    which the class inherits from [Transform], yields [None], and [begin]
    returns, with the snapshot and the ending mobject ghosted and the
    [target_mobject] still [None]. *)
Lemma FadeTransform_begin_without_target :
  Transform_create_target (list (nat * R))
    (as_Transform demo_FadeTransform) demo_group_store
  = (None, demo_group_store)
  /\ exists f' s',
       demo_FadeTransform_begin demo_FadeTransform demo_group_store
       = inr (f', s')
       /\ target_mobject (as_Transform f') = None
       /\ s' !! 0%nat = Some [(3%nat, 1); (5%nat, 1)]
       /\ (exists st, starting_mobject (as_Transform f') = Some st
             /\ s' !! st = Some [(3%nat, 1); (3%nat, 0)])
       /\ (exists e, ending_mobject f' = Some e
             /\ s' !! e = Some [(5%nat, 0); (5%nat, 1)]).
Proof.
  split; [reflexivity|].
  eexists _, _. split; [reflexivity|]. split; [reflexivity|].
  split; [reflexivity|]. split.
  - eexists. split; reflexivity.
  - eexists. split; reflexivity.
Qed.

Definition demo_store : gmap nat nat := <[1%nat := 5%nat]> {[0%nat := 3%nat]}.

Lemma Transform_begin_preserves_target_witness :
  exists a' s',
    demo_begin (Transform_init "Transform" 0 (Some 1%nat)) demo_store
    = Returned nat a' s'
    /\ s' !! 1%nat = Some 5%nat.
Proof.
  destruct (Transform_begin_preserves_target nat Nat.eqb (fun v => v)
              (fun v1 v2 => (Nat.max v1 v2, Nat.max v1 v2))
              (fun vm _ => (vm, vm)) (fun _ => false) (fun vm _ _ => vm)
              (Transform_create_target nat)
              (Transform_init "Transform" 0 (Some 1%nat))
              demo_store demo_store 1%nat 3%nat 5%nat
              eq_refl eq_refl eq_refl ltac:(discriminate))
    as (a' & s' & E & _ & H & _).
  exists a', s'. split; [exact E|]. apply H. reflexivity.
Defined.

(** *** CyclicReplace *)

(** Modelled from the spec: the constants [TAU], [DEG] and [OUT] of
    [manimlib.constants] are not among the sources.  [DEG] is one degree in
    radians, so that the default [path_arc] of [CyclicReplace], [90 * DEG],
    is the "90 degrees" of the spec; [OUT] is the unit vector of the z
    axis. *)
Definition TAU : R := 2 * PI.
Definition DEG : R := TAU / 360.
Definition OUT : R * R * R := (0, 0, 1).

(** The path functions of [manimlib.utils.paths], by name. *)
Inductive path_function : Type :=
  | straight_path
  | path_along_arc (arc_angle : R) (axis : R * R * R).

(** [Transform.init_path_func]: the value of [self.path_func] after it. *)
Definition init_path_func (path_func : option path_function)
    (path_arc : R) (path_arc_axis : R * R * R) : path_function :=
  match path_func with
  | Some f => f
  | None =>
      if Req_dec_T path_arc 0 then straight_path
      else path_along_arc path_arc path_arc_axis
  end.

Definition CyclicReplace_default_path_arc : R := 90 * DEG.

Section CyclicReplace.

(** A member of the group, its centre, and the two methods of [Mobject]
    that [create_target] calls; [move_to m1 m2] is [m1] after
    [m1.move_to(m2)]. *)
Variable Mobject : Type.
Variable Point : Type.
Variable get_center : Mobject -> Point.
Variable copy : Mobject -> Mobject.
Variable move_to : Mobject -> Mobject -> Mobject.

(** The loop [for m1, m2 in zip(cycled_targets, group): m1.move_to(m2)].
    The elements of [cycled_targets] are the members of [target]
    themselves, not copies: each is given by its index in [target], and
    moving it updates [target] at that index. *)
Definition move_each (target : list Mobject) (pairs : list (nat * Mobject))
  : list Mobject :=
  fold_left
    (fun tgt '(i, m2) =>
       match tgt !! i with
       | Some m1 => <[i := move_to m1 m2]> tgt
       | None => tgt
       end)
    pairs target.

(** [CyclicReplace.create_target], on the members of the group; [None] when
    [target[-1]] raises IndexError. *)
Definition CyclicReplace_create_target (group : list Mobject)
  : option (list Mobject) :=
  let target := copy <$> group in
  _ ← getitem target (-1);
  let cycled_targets :=
    (length target - 1)%nat :: seq 0 (length (slice_to target (-1))) in
  Some (move_each target (zip cycled_targets group)).

Lemma move_each_length pairs : forall target,
  length (move_each target pairs) = length target.
Proof.
  induction pairs as [|[i m2] pairs IH]; intros target; [reflexivity|].
  unfold move_each in *. simpl. rewrite IH.
  destruct (target !! i); [apply length_insert|reflexivity].
Qed.

Lemma move_each_lookup_other pairs i : forall target,
  i ∉ pairs.*1 -> move_each target pairs !! i = target !! i.
Proof.
  induction pairs as [|[j m2] pairs IH]; intros target Hi; [reflexivity|].
  simpl in Hi. apply not_elem_of_cons in Hi as [Hij Hi].
  unfold move_each in *. simpl. rewrite IH by exact Hi.
  destruct (target !! j); [|reflexivity].
  apply list_lookup_insert_ne. congruence.
Qed.

Lemma move_each_lookup pairs i m1 m2 : forall target,
  NoDup pairs.*1 -> (i, m2) ∈ pairs -> target !! i = Some m1 ->
  move_each target pairs !! i = Some (move_to m1 m2).
Proof.
  induction pairs as [|[j m] pairs IH]; intros target Hnd Hin Hi.
  - inversion Hin.
  - simpl in Hnd. apply NoDup_cons in Hnd as [Hj Hnd].
    apply elem_of_cons in Hin as [[= <- <-]|Hin].
    + change (move_each target ((i, m2) :: pairs))
        with (move_each (match target !! i with
                         | Some m1 => <[i := move_to m1 m2]> target
                         | None => target
                         end) pairs).
      rewrite Hi. rewrite move_each_lookup_other by exact Hj.
      apply list_lookup_insert_eq. eapply lookup_lt_Some. exact Hi.
    + change (move_each target ((j, m) :: pairs))
        with (move_each (match target !! j with
                         | Some m1 => <[j := move_to m1 m]> target
                         | None => target
                         end) pairs).
      apply IH; [exact Hnd|exact Hin|].
      destruct (target !! j); [|exact Hi].
      rewrite list_lookup_insert_ne; [exact Hi|].
      intros ->. apply Hj. apply (list_elem_of_fmap_2 fst _ _ Hin).
Qed.

(** On a group of [S k] members the indices of [cycled_targets] are
    [k, 0, 1, ..., k-1]. *)
Lemma CyclicReplace_create_target_unfold g0 rest :
  CyclicReplace_create_target (g0 :: rest)
  = Some (move_each (copy <$> (g0 :: rest))
            ((length rest, g0) :: zip (seq 0 (length rest)) rest)).
Proof.
  unfold CyclicReplace_create_target, getitem, slice_to.
  set (target := copy <$> (g0 :: rest)).
  assert (Hlen : length target = S (length rest)).
  { unfold target. rewrite length_fmap. reflexivity. }
  rewrite Hlen.
  destruct (Z.leb_spec 0 (-1)); [lia|].
  destruct (Z.leb_spec (- Z.of_nat (S (length rest))) (-1)); [|lia].
  destruct (lookup_lt_is_Some_2 target
              (Z.to_nat (Z.of_nat (S (length rest)) + -1))) as [x E]; [lia|].
  rewrite E. simpl.
  rewrite length_take, Hlen.
  replace (Z.to_nat (Z.of_nat (S (length rest)) + -1) `min` S (length rest))%nat
    with (length rest) by lia.
  rewrite Nat.sub_0_r. reflexivity.
Qed.

Lemma CyclicReplace_pairs_NoDup (g0 : Mobject) rest :
  NoDup ((length rest, g0) :: zip (seq 0 (length rest)) rest).*1.
Proof.
  simpl. rewrite fst_zip by (rewrite length_seq; lia).
  apply NoDup_cons. split; [|apply NoDup_seq].
  rewrite elem_of_seq. lia.
Qed.

(** The member at index [i] is moved to the member at index
    [(i + 1) mod n] of the group. *)
Lemma CyclicReplace_target_lookup group i m :
  group !! i = Some m ->
  exists target m2,
    CyclicReplace_create_target group = Some target
    /\ length target = length group
    /\ group !! ((i + 1) mod length group)%nat = Some m2
    /\ target !! i = Some (move_to (copy m) m2).
Proof.
  intros Hi. destruct group as [|g0 rest]; [discriminate|].
  rewrite CyclicReplace_create_target_unfold.
  set (pairs := (length rest, g0) :: zip (seq 0 (length rest)) rest).
  pose proof (lookup_lt_Some _ _ _ Hi) as Hlt. simpl in Hlt.
  assert (Hm2 : exists m2,
             (g0 :: rest) !! ((i + 1) mod S (length rest))%nat = Some m2
             /\ (i, m2) ∈ pairs).
  { destruct (decide (i = length rest)) as [->|Hne].
    - exists g0. replace (length rest + 1)%nat with (S (length rest)) by lia.
      rewrite Nat.Div0.mod_same. split; [reflexivity|]. apply list_elem_of_here.
    - rewrite Nat.mod_small by lia.
      destruct (lookup_lt_is_Some_2 rest i) as [m2 E]; [lia|].
      exists m2. replace (i + 1)%nat with (S i) by lia.
      split; [exact E|]. apply list_elem_of_further.
      apply (list_elem_of_lookup_2 _ i). apply lookup_zip_Some.
      split; [|exact E]. apply lookup_seq_lt. lia. }
  destruct Hm2 as (m2 & Hg & Hin).
  eexists _, m2. split; [reflexivity|].
  split; [rewrite move_each_length, length_fmap; reflexivity|].
  split; [exact Hg|].
  apply move_each_lookup; [apply CyclicReplace_pairs_NoDup|exact Hin|].
  rewrite list_lookup_fmap, Hi. reflexivity.
Qed.

Lemma CyclicReplace_empty_group : CyclicReplace_create_target [] = None.
Proof. reflexivity. Qed.

Lemma CyclicReplace_default_path_arc_quarter_turn :
  CyclicReplace_default_path_arc = PI / 2.
Proof. unfold CyclicReplace_default_path_arc, DEG, TAU. lra. Qed.

Lemma CyclicReplace_path_func :
  init_path_func None CyclicReplace_default_path_arc OUT
  = path_along_arc CyclicReplace_default_path_arc OUT.
Proof.
  unfold init_path_func.
  destruct (Req_dec_T CyclicReplace_default_path_arc 0) as [E|_];
    [|reflexivity].
  rewrite CyclicReplace_default_path_arc_quarter_turn in E.
  pose proof PI_RGT_0. lra.
Qed.

(** C6 (amended).  If [move_to] puts the centre of its receiver on the
    centre of its argument, then on a group of [n] members the target of
    member [i] is the copy of member [i] moved onto member
    [(i + 1) mod n]; the centres of the targets are the centres of the
    group rotated by one place, so every target sits on an original
    position; and the animation runs along an arc of [90 * DEG], a quarter
    turn. *)
Theorem CyclicReplace_create_target_spec
    (group : list Mobject) (i : nat) (m : Mobject) :
  (forall m1 m2, get_center (move_to m1 m2) = get_center m2) ->
  group !! i = Some m ->
  exists (target : list Mobject) (m2 : Mobject),
    CyclicReplace_create_target group = Some target
    /\ length target = length group
    /\ group !! ((i + 1) mod length group)%nat = Some m2
    /\ target !! i = Some (move_to (copy m) m2)
    /\ get_center <$> target = rotate 1 (get_center <$> group)
    /\ init_path_func None CyclicReplace_default_path_arc OUT
       = path_along_arc CyclicReplace_default_path_arc OUT
    /\ CyclicReplace_default_path_arc = PI / 2.
Proof.
  intros Hcenter Hi.
  destruct (CyclicReplace_target_lookup group i m Hi)
    as (target & m2 & Ect & Hlen & Hm2 & Ht).
  exists target, m2. split; [exact Ect|]. split; [exact Hlen|].
  split; [exact Hm2|]. split; [exact Ht|].
  split; [|split; [apply CyclicReplace_path_func
                  |apply CyclicReplace_default_path_arc_quarter_turn]].
  apply list_eq. intros j.
  destruct (decide (j < length group)%nat) as [Hj|Hj].
  - destruct (lookup_lt_is_Some_2 group j Hj) as [mj Emj].
    destruct (CyclicReplace_target_lookup group j mj Emj)
      as (target' & mj2 & Ect' & _ & Hmj2 & Htj).
    rewrite Ect in Ect'. injection Ect' as <-.
    rewrite list_lookup_fmap, Htj. simpl. rewrite Hcenter.
    rewrite lookup_rotate_r by (rewrite length_fmap; exact Hj).
    rewrite length_fmap. unfold rotate_nat_add.
    rewrite <- Nat2Z.inj_add, <- Nat2Z.inj_mod, Nat2Z.id.
    rewrite list_lookup_fmap. rewrite Nat.add_comm, Hmj2. reflexivity.
  - rewrite !lookup_ge_None_2; [reflexivity| |].
    + rewrite length_rotate, length_fmap. lia.
    + rewrite length_fmap, Hlen. lia.
Qed.

End CyclicReplace.

(** An instance for evaluation: a member is a name and the abscissa of its
    centre. *)
Definition demo_group : list (string * Z) :=
  [("a", 0%Z); ("b", 1%Z); ("c", 2%Z)].

Definition demo_create_target :=
  CyclicReplace_create_target (string * Z) (fun m => m)
    (fun m1 m2 => (m1.1, m2.2)).

Lemma CyclicReplace_create_target_spec_witness :
  exists target,
    demo_create_target demo_group = Some target
    /\ target !! 0%nat = Some ("a", 1%Z)
    /\ snd <$> target = rotate 1 (snd <$> demo_group).
Proof.
  destruct (CyclicReplace_create_target_spec (string * Z) Z snd
              (fun m => m) (fun m1 m2 => (m1.1, m2.2))
              demo_group 0 ("a", 0%Z) (fun _ _ => eq_refl) eq_refl)
    as (target & m2 & Ect & _ & Hm2 & Ht & Hrot & _).
  exists target. split; [exact Ect|]. split; [|exact Hrot].
  rewrite Ht. injection Hm2 as <-. reflexivity.
Defined.

(** C6 (as stated, refuted).  On three members at three different
    positions the target of member 0 is on member 1, not on member
    [(0 - 1) mod 3 = 2]. *)
Lemma CyclicReplace_previous_member_refuted :
  exists target,
    demo_create_target demo_group = Some target
    /\ ~ (forall (i : nat) (m' : string * Z),
            target !! i = Some m' ->
            exists mp,
              demo_group !! ((i + 3 - 1) mod 3)%nat = Some mp
              /\ m'.2 = mp.2).
Proof.
  eexists. split; [reflexivity|].
  intros H. destruct (H 0%nat _ eq_refl) as (mp & E & C).
  vm_compute in E. injection E as <-. vm_compute in C. discriminate C.
Qed.

(** *** What [Transform.begin] touches *)

Section BeginFrame.

Variable Mobject : Type.
Variable is_aligned_with : Mobject -> Mobject -> bool.
Variable copy : Mobject -> Mobject.
Variable align_data_and_family : Mobject -> Mobject -> Mobject * Mobject.
Variable Animation_begin : Mobject -> Mobject -> Mobject * Mobject.
Variable has_updaters : Mobject -> bool.
Variable lock_matching_data : Mobject -> Mobject -> Mobject -> Mobject.
Variable create_target :
  Transform -> gmap loc Mobject -> option loc * gmap loc Mobject.

Local Abbreviation begin' :=
  (begin Mobject is_aligned_with copy align_data_and_family Animation_begin
     has_updaters lock_matching_data create_target).

Lemma fresh_ne (s : gmap loc Mobject) (l : loc) :
  is_Some (s !! l) -> fresh (dom s) <> l.
Proof.
  intros Hl E. apply (is_fresh (dom s)). rewrite E. apply elem_of_dom, Hl.
Qed.

Ltac kept_lookup Hl :=
  repeat (rewrite lookup_insert_ne;
          [|first [congruence
                  |apply fresh_ne; rewrite ?lookup_insert_is_Some'; tauto]]);
  try reflexivity.

(** [begin] returns whenever [create_target] yields an object and both the
    mobject and the target are in the store; it writes to the animated
    mobject, possibly to the target, and to objects it creates, and to
    nothing else. *)
Lemma begin_returns_and_keeps
    (a : Transform) (s s1 : gmap loc Mobject) (t : loc) (vm vt : Mobject) :
  create_target a s = (Some t, s1) ->
  s1 !! mobject a = Some vm ->
  s1 !! t = Some vt ->
  exists (a' : Transform) (s' : gmap loc Mobject),
    begin' a s = Returned Mobject a' s'
    /\ mobject a' = mobject a
    /\ forall l : loc,
         l <> mobject a -> l <> t -> is_Some (s1 !! l) ->
         s' !! l = s1 !! l.
Proof.
  intros Hct Hm Ht. unfold begin, alloc. rewrite Hct. simpl.
  rewrite Hm, Ht.
  assert (Hsome : forall (s0 : gmap loc Mobject) (k l : loc) (v : Mobject),
             is_Some (s0 !! l) -> is_Some (<[k := v]> s0 !! l)).
  { intros s0 k l v H. rewrite lookup_insert_is_Some'. tauto. }
  destruct (is_aligned_with vm vt).
  - simpl. rewrite Ht.
    destruct (align_data_and_family vm vt) as [vm1 vt1]. simpl.
    destruct (<[t := vt1]> (<[mobject a := vm1]> s1) !! mobject a)
      as [vm1'|] eqn:E1.
    2:{ exfalso. eapply is_Some_None. rewrite <- E1.
        apply Hsome. rewrite lookup_insert_eq. eauto. }
    rewrite lookup_insert_eq.
    destruct (Animation_begin vm1' vt1) as [vm2 vstart].
    set (s4 := <[mobject a := vm2]>
                 (<[t := vt1]> (<[mobject a := vm1]> s1))).
    assert (H4t : is_Some (s4 !! t)).
    { unfold s4. apply Hsome. rewrite lookup_insert_eq. eauto. }
    destruct (has_updaters vm2).
    + eexists _, _. split; [reflexivity|]. split; [reflexivity|].
      intros l Hlm Hlt Hl. unfold s4. kept_lookup Hl.
    + destruct (<[fresh (dom s4) := vstart]> s4 !! t) as [vtc|] eqn:E5.
      2:{ exfalso. eapply is_Some_None. rewrite <- E5.
          apply Hsome, H4t. }
      eexists _, _. split; [reflexivity|]. split; [reflexivity|].
      intros l Hlm Hlt Hl. simpl. unfold s4. kept_lookup Hl.
  - simpl. rewrite lookup_insert_eq.
    destruct (align_data_and_family vm (copy vt)) as [vm1 vtc1]. simpl.
    set (tc := fresh (dom s1)).
    assert (Htcm : tc <> mobject a) by (apply fresh_ne; eauto).
    rewrite (lookup_insert_ne _ tc (mobject a)) by exact Htcm.
    rewrite !lookup_insert_eq.
    destruct (Animation_begin vm1 vtc1) as [vm2 vstart].
    set (s4 := <[mobject a := vm2]>
                 (<[tc := vtc1]>
                    (<[mobject a := vm1]> (<[tc := copy vt]> s1)))).
    assert (H4tc : is_Some (s4 !! tc)).
    { unfold s4. apply Hsome. rewrite lookup_insert_eq. eauto. }
    destruct (has_updaters vm2).
    + eexists _, _. split; [reflexivity|]. split; [reflexivity|].
      intros l Hlm Hlt Hl. unfold s4, tc. kept_lookup Hl.
    + destruct (<[fresh (dom s4) := vstart]> s4 !! tc) as [vtc|] eqn:E5.
      2:{ exfalso. eapply is_Some_None. rewrite <- E5.
          apply Hsome, H4tc. }
      eexists _, _. split; [reflexivity|]. split; [reflexivity|].
      intros l Hlm Hlt Hl. simpl. unfold s4, tc. kept_lookup Hl.
Qed.


End BeginFrame.

(** [TransformFromCopy.__init__]: the animated mobject is a new copy of the
    source; [None] when the source is not in the store. *)
Definition TransformFromCopy_init {Mobject : Type} (copy : Mobject -> Mobject)
    (source target : loc) (s : gmap loc Mobject)
  : option (Transform * gmap loc Mobject) :=
  v ← s !! source;
  let '(c, s) := alloc Mobject (copy v) s in
  Some (Transform_init "TransformFromCopy" c (Some target), s).

(** X13.  A [TransformFromCopy] never changes its source: the constructor
    copies it, [begin] works on the copy, and the source has the same value
    after [begin] as before the animation was made. *)
Theorem TransformFromCopy_keeps_source
    (Mobject : Type)
    (is_aligned_with : Mobject -> Mobject -> bool)
    (copy : Mobject -> Mobject)
    (align_data_and_family : Mobject -> Mobject -> Mobject * Mobject)
    (Animation_begin : Mobject -> Mobject -> Mobject * Mobject)
    (has_updaters : Mobject -> bool)
    (lock_matching_data : Mobject -> Mobject -> Mobject -> Mobject)
    (s : gmap loc Mobject) (source target : loc) (v vt : Mobject) :
  s !! source = Some v ->
  s !! target = Some vt ->
  source <> target ->
  exists (a a' : Transform) (s0 s' : gmap loc Mobject),
    TransformFromCopy_init copy source target s = Some (a, s0)
    /\ mobject a <> source
    /\ s0 !! mobject a = Some (copy v)
    /\ begin Mobject is_aligned_with copy align_data_and_family
         Animation_begin has_updaters lock_matching_data
         (Transform_create_target Mobject) a s0
       = Returned Mobject a' s'
    /\ s' !! source = Some v.
Proof.
  intros Hs Ht Hne. unfold TransformFromCopy_init, alloc. rewrite Hs. simpl.
  set (c := fresh (dom s)).
  assert (Hcs : c <> source) by (apply fresh_ne; eauto).
  assert (Hct : c <> target) by (apply fresh_ne; eauto).
  set (a := Transform_init "TransformFromCopy" c (Some target)).
  set (s0 := <[c := copy v]> s).
  destruct (begin_returns_and_keeps Mobject is_aligned_with copy
              align_data_and_family Animation_begin has_updaters
              lock_matching_data (Transform_create_target Mobject)
              a s0 s0 target (copy v) vt)
    as (a' & s' & E & _ & Hkeep).
  - reflexivity.
  - unfold s0. simpl. apply lookup_insert_eq.
  - unfold s0. rewrite lookup_insert_ne by exact Hct. exact Ht.
  - exists a, a', s0, s'. split; [reflexivity|]. split; [exact Hcs|].
    split; [apply lookup_insert_eq|]. split; [exact E|].
    rewrite (Hkeep source).
    + unfold s0. rewrite lookup_insert_ne by exact Hcs. exact Hs.
    + simpl. congruence.
    + exact Hne.
    + unfold s0. rewrite lookup_insert_ne by exact Hcs. eauto.
Qed.



Lemma TransformFromCopy_keeps_source_witness :
  exists a a' s0 s',
    TransformFromCopy_init (fun v => v) 0%nat 1%nat demo_store = Some (a, s0)
    /\ demo_begin a s0 = Returned nat a' s'
    /\ s' !! 0%nat = Some 3%nat.
Proof.
  destruct (TransformFromCopy_keeps_source nat Nat.eqb (fun v => v)
              (fun v1 v2 => (Nat.max v1 v2, Nat.max v1 v2))
              (fun vm _ => (vm, vm)) (fun _ => false) (fun vm _ _ => vm)
              demo_store 0%nat 1%nat 3%nat 5%nat
              eq_refl eq_refl ltac:(discriminate))
    as (a & a' & s0 & s' & E0 & _ & _ & E & H).
  exists a, a', s0, s'. repeat split; assumption.
Defined.

(** *** ApplyMatrix *)

(** A matrix, as the list of its rows. *)
Abbreviation matrix := (list (list R)).

(** [ApplyMatrix.initialize_matrix], for a rectangular argument (a ragged
    list of rows is not an array with a two-dimensional shape): a 2 by 2
    matrix is written into the upper left corner of the 3 by 3 identity, a
    3 by 3 matrix is kept, and any other shape raises. *)
Definition initialize_matrix (m : matrix) : exn + matrix :=
  match m with
  | [[a; b]; [c; d]] => inr [[a; b; 0]; [c; d; 0]; [0; 0; 1]]
  | [[_; _; _]; [_; _; _]; [_; _; _]] => inr m
  | _ => inl (Exception "Matrix has bad dimensions")
  end.

(** [np.dot(p, matrix.T)] for a point [p] and a 3 by 3 matrix. *)
Definition dot_transpose (p : R * R * R) (m : matrix) : option (R * R * R) :=
  let '(x, y, z) := p in
  match m with
  | [[m00; m01; m02]; [m10; m11; m12]; [m20; m21; m22]] =>
      Some (x * m00 + y * m01 + z * m02,
            x * m10 + y * m11 + z * m12,
            x * m20 + y * m21 + z * m22)
  | _ => None
  end.

(** The function [func] that [ApplyMatrix.__init__] hands to
    [ApplyPointwiseFunction]; [inl] when the constructor raises. *)
Definition ApplyMatrix_func (m : matrix)
  : exn + (R * R * R -> option (R * R * R)) :=
  match initialize_matrix m with
  | inl e => inl e
  | inr m3 => inr (fun p => dot_transpose p m3)
  end.

(** X14.  Whatever [initialize_matrix] returns is a 3 by 3 matrix that it
    would return unchanged, so the function of an [ApplyMatrix] is defined
    at every point; and a 2 by 2 matrix acts on the first two coordinates
    of a point and keeps the third. *)
Theorem ApplyMatrix_initialize_matrix (m m3 : matrix) :
  initialize_matrix m = inr m3 ->
  initialize_matrix m3 = inr m3
  /\ length m3 = 3%nat
  /\ Forall (fun row => length row = 3%nat) m3
  /\ (forall p, is_Some (dot_transpose p m3))
  /\ (forall a b c d x y z,
        m = [[a; b]; [c; d]] ->
        dot_transpose (x, y, z) m3 = Some (a * x + b * y, c * x + d * y, z)).
Proof.
  intros H.
  assert (Hshape : exists a b c d e f g h i,
             m3 = [[a; b; c]; [d; e; f]; [g; h; i]]).
  { unfold initialize_matrix in H.
    repeat match type of H with
           | match ?l with _ => _ end = _ => destruct l; try discriminate
           end;
      injection H as <-; do 9 eexists; reflexivity. }
  destruct Hshape as (m00 & m01 & m02 & m10 & m11 & m12 & m20 & m21 & m22 & ->).
  split; [reflexivity|]. split; [reflexivity|].
  split; [repeat constructor|]. split.
  - intros [[x y] z]. eexists. reflexivity.
  - intros a b c d x y z ->. simpl in H. injection H as <- <- <- <- <- <- <- <- <-.
    simpl. f_equal. f_equal; [f_equal|]; lra.
Qed.

Lemma ApplyMatrix_initialize_matrix_witness :
  initialize_matrix [[0; -1]; [1; 0]] = inr [[0; -1; 0]; [1; 0; 0]; [0; 0; 1]]
  /\ dot_transpose (1, 2, 3) [[0; -1; 0]; [1; 0; 0]; [0; 0; 1]]
     = Some (0 * 1 + -1 * 2, 1 * 1 + 0 * 2, 3).
Proof.
  assert (H : initialize_matrix [[0; -1]; [1; 0]]
              = inr [[0; -1; 0]; [1; 0; 0]; [0; 0; 1]]) by reflexivity.
  split; [exact H|].
  destruct (ApplyMatrix_initialize_matrix _ _ H) as (_ & _ & _ & _ & Hact).
  exact (Hact 0 (-1) 1 0 1 2 3 eq_refl).
Defined.

(** X15.  Every rectangular matrix that is neither 2 by 2 nor 3 by 3 makes
    the constructor of [ApplyMatrix] raise, and no function is built. *)
Theorem ApplyMatrix_bad_dimensions (m : matrix) (cols : nat) :
  Forall (fun row => length row = cols) m ->
  (length m, cols) <> (2%nat, 2%nat) ->
  (length m, cols) <> (3%nat, 3%nat) ->
  initialize_matrix m = inl (Exception "Matrix has bad dimensions")
  /\ ApplyMatrix_func m = inl (Exception "Matrix has bad dimensions").
Proof.
  intros Hrect H22 H33.
  assert (E : initialize_matrix m = inl (Exception "Matrix has bad dimensions")).
  { destruct (initialize_matrix m) as [e|m3] eqn:E.
    - unfold initialize_matrix in E.
      repeat match type of E with
             | match ?l with _ => _ end = _ => destruct l
             end; try discriminate; injection E as <-; reflexivity.
    - exfalso. unfold initialize_matrix in E.
      repeat match type of E with
             | match ?l with _ => _ end = _ => destruct l; try discriminate
             end;
        inversion Hrect as [|? ? Hc _]; simpl in Hc; subst cols;
        simpl in *; congruence. }
  split; [exact E|]. unfold ApplyMatrix_func. rewrite E. reflexivity.
Qed.

Lemma ApplyMatrix_bad_dimensions_witness :
  Forall (fun row : list R => length row = 3%nat) [[1; 2; 3]; [4; 5; 6]]
  /\ initialize_matrix [[1; 2; 3]; [4; 5; 6]]
     = inl (Exception "Matrix has bad dimensions").
Proof.
  assert (H : Forall (fun row : list R => length row = 3%nat)
                [[1; 2; 3]; [4; 5; 6]])
    by (repeat constructor).
  split; [exact H|].
  exact (proj1 (ApplyMatrix_bad_dimensions _ 3%nat H
                  ltac:(discriminate) ltac:(discriminate))).
Defined.

(** *** Successive cyclic replacements *)

Lemma lookup_rotate_nat {A : Type} (l : list A) (n i : nat) :
  (i < length l)%nat ->
  rotate n l !! i = l !! ((n + i) mod length l)%nat.
Proof.
  intros Hi. rewrite lookup_rotate_r by exact Hi. unfold rotate_nat_add.
  rewrite <- Nat2Z.inj_add, <- Nat2Z.inj_mod, Nat2Z.id. reflexivity.
Qed.

Lemma rotate_rotate {A : Type} (l : list A) (a b : nat) :
  rotate a (rotate b l) = rotate (a + b) l.
Proof.
  apply list_eq. intros i.
  destruct (decide (i < length l)%nat) as [Hi|Hi].
  - assert (Hpos : length l <> 0%nat) by lia.
    rewrite lookup_rotate_nat by (rewrite length_rotate; exact Hi).
    rewrite length_rotate.
    rewrite lookup_rotate_nat by (apply Nat.mod_upper_bound, Hpos).
    rewrite lookup_rotate_nat by exact Hi.
    f_equal. rewrite Nat.Div0.add_mod_idemp_r. f_equal. lia.
  - rewrite !lookup_ge_None_2; [reflexivity| |];
      rewrite !length_rotate; lia.
Qed.

Lemma rotate_full {A : Type} (l : list A) : rotate (length l) l = l.
Proof.
  apply list_eq. intros i.
  destruct (decide (i < length l)%nat) as [Hi|Hi].
  - rewrite lookup_rotate_nat by exact Hi. f_equal.
    replace (length l + i)%nat with (i + 1 * length l)%nat by lia.
    rewrite Nat.Div0.mod_add. apply Nat.mod_small, Hi.
  - rewrite !lookup_ge_None_2; [reflexivity| |];
      rewrite ?length_rotate; lia.
Qed.

Section CyclicReplaceRounds.

Variable Mobject : Type.
Variable Point : Type.
Variable get_center : Mobject -> Point.
Variable copy : Mobject -> Mobject.
Variable move_to : Mobject -> Mobject -> Mobject.

Hypothesis move_to_center :
  forall m1 m2, get_center (move_to m1 m2) = get_center m2.

(** The group after [k] cyclic replacements played one after the other:
    each animation ends with the group in the state of its target. *)
Fixpoint CyclicReplace_rounds (k : nat) (group : list Mobject)
  : option (list Mobject) :=
  match k with
  | O => Some group
  | S k' =>
      target ← CyclicReplace_create_target Mobject copy move_to group;
      CyclicReplace_rounds k' target
  end.

Lemma CyclicReplace_centers (group : list Mobject) :
  group <> [] ->
  exists target,
    CyclicReplace_create_target Mobject copy move_to group = Some target
    /\ length target = length group
    /\ get_center <$> target = rotate 1 (get_center <$> group).
Proof.
  intros Hne. destruct group as [|g0 rest] eqn:Eg; [congruence|].
  rewrite <- Eg. assert (H0 : group !! 0%nat = Some g0) by (subst; reflexivity).
  clear Eg Hne.
  destruct (CyclicReplace_target_lookup Mobject copy move_to group 0 g0 H0)
    as (target & _ & Ect & Hlen & _ & _).
  exists target. split; [exact Ect|]. split; [exact Hlen|].
  apply list_eq. intros j.
  destruct (decide (j < length group)%nat) as [Hj|Hj].
  - destruct (lookup_lt_is_Some_2 group j Hj) as [mj Emj].
    destruct (CyclicReplace_target_lookup Mobject copy move_to group j mj Emj)
      as (target' & mj2 & Ect' & _ & Hmj2 & Htj).
    rewrite Ect in Ect'. injection Ect' as <-.
    rewrite list_lookup_fmap, Htj. simpl. rewrite move_to_center.
    rewrite lookup_rotate_nat by (rewrite length_fmap; exact Hj).
    rewrite length_fmap, list_lookup_fmap.
    rewrite Nat.add_comm, Hmj2. reflexivity.
  - rewrite !lookup_ge_None_2; [reflexivity| |].
    + rewrite length_rotate, length_fmap. lia.
    + rewrite length_fmap, Hlen. lia.
Qed.

(** X16.  Cyclic replacements compose: after [k] of them on a non-empty
    group the centres are those of the group rotated by [k] places, and
    after as many as the group has members every member is back where it
    started.  In particular two swaps of two mobjects undo each other. *)
Theorem CyclicReplace_rounds_rotate (k : nat) (group : list Mobject) :
  group <> [] ->
  exists after : list Mobject,
    CyclicReplace_rounds k group = Some after
    /\ length after = length group
    /\ get_center <$> after = rotate k (get_center <$> group)
    /\ (k = length group -> get_center <$> after = get_center <$> group).
Proof.
  intros Hne.
  assert (H : exists after,
             CyclicReplace_rounds k group = Some after
             /\ length after = length group
             /\ get_center <$> after = rotate k (get_center <$> group)).
  { revert group Hne. induction k as [|k IH]; intros group Hne.
    - exists group. split; [reflexivity|]. split; [reflexivity|].
      unfold rotate. simpl. rewrite Nat.Div0.mod_0_l.
      rewrite drop_0, take_0, app_nil_r. reflexivity.
    - destruct (CyclicReplace_centers group Hne) as (target & Ect & Hlen & Hc).
      destruct (IH target) as (after & Er & Hl & Ha).
      { intros ->. destruct group; [congruence|discriminate]. }
      exists after. simpl. rewrite Ect. simpl.
      split; [exact Er|]. split; [congruence|].
      rewrite Ha, Hc, rotate_rotate. f_equal. lia. }
  destruct H as (after & Er & Hl & Ha).
  exists after. split; [exact Er|]. split; [exact Hl|]. split; [exact Ha|].
  intros ->. rewrite Ha.
  rewrite <- (length_fmap get_center group) at 1. apply rotate_full.
Qed.

End CyclicReplaceRounds.

Lemma CyclicReplace_rounds_rotate_witness :
  exists after,
    CyclicReplace_rounds (string * Z) (fun m => m) (fun m1 m2 => (m1.1, m2.2))
      3 demo_group = Some after
    /\ snd <$> after = snd <$> demo_group.
Proof.
  destruct (CyclicReplace_rounds_rotate (string * Z) Z snd (fun m => m)
              (fun m1 m2 => (m1.1, m2.2)) (fun _ _ => eq_refl)
              3 demo_group ltac:(discriminate))
    as (after & E & _ & _ & H).
  exists after. split; [exact E|]. apply H. reflexivity.
Defined.

(** *** MoveToTarget and Restore *)

(** An attribute of a mobject that may be missing ([hasattr] is false), may
    hold [None], or may hold an object. *)
Inductive attribute : Type :=
  | Missing
  | HoldsNone
  | Holds (l : loc).

Definition attribute_value (x : attribute) : option loc :=
  match x with
  | Holds l => Some l
  | _ => None
  end.

(** [MoveToTarget.__init__], from the mobject and its attribute [target]:
    [check_validity_of_input] tests [hasattr] only. *)
Definition MoveToTarget_init (mob : loc) (target : attribute)
  : exn + Transform :=
  match target with
  | Missing =>
      inl (Exception
             "MoveToTarget called on mobject without attribute 'target'")
  | _ => inr (Transform_init "MoveToTarget" mob (attribute_value target))
  end.

(** [Restore.__init__], from the mobject and its attribute [saved_state]. *)
Definition Restore_init (mob : loc) (saved_state : attribute)
  : exn + Transform :=
  match saved_state with
  | Missing | HoldsNone =>
      inl (Exception "Trying to restore without having saved")
  | Holds l => inr (Transform_init "Restore" mob (Some l))
  end.

(** X20.  [Restore] refuses at construction a mobject whose saved state is
    missing or [None], so an animation it builds always has a target.
    [MoveToTarget] only asks that the attribute exists: with a [target]
    that is [None] the constructor succeeds and it is [begin] that raises,
    with the message about [create_target]. *)
Theorem MoveToTarget_None_fails_at_begin
    (Mobject : Type)
    (is_aligned_with : Mobject -> Mobject -> bool)
    (copy : Mobject -> Mobject)
    (align_data_and_family : Mobject -> Mobject -> Mobject * Mobject)
    (Animation_begin : Mobject -> Mobject -> Mobject * Mobject)
    (has_updaters : Mobject -> bool)
    (lock_matching_data : Mobject -> Mobject -> Mobject -> Mobject)
    (mob : loc) (x : attribute) (s : gmap loc Mobject) :
  let begin' :=
    begin Mobject is_aligned_with copy align_data_and_family Animation_begin
      has_updaters lock_matching_data (Transform_create_target Mobject) in
  (forall a, Restore_init mob x = inr a ->
             exists l, x = Holds l /\ target_mobject a = Some l
                       /\ check_target_mobject_validity a = None)
  /\ (attribute_value x = None ->
      Restore_init mob x
      = inl (Exception "Trying to restore without having saved"))
  /\ (exists a,
        MoveToTarget_init mob HoldsNone = inr a
        /\ begin' a s
           = Raised Mobject
               (Exception "MoveToTarget.create_target not properly implemented")
               a s)
  /\ (forall a l vm vt,
        MoveToTarget_init mob x = inr a -> x = Holds l ->
        s !! mob = Some vm -> s !! l = Some vt ->
        exists a' s', begin' a s = Returned Mobject a' s').
Proof.
  intros begin'. split; [|split; [|split]].
  - intros a H. destruct x as [| |l]; try discriminate.
    injection H as <-. exists l. repeat split.
  - destruct x; [reflexivity|reflexivity|discriminate].
  - eexists. split; [reflexivity|]. reflexivity.
  - intros a l vm vt H -> Hm Hl. injection H as <-.
    destruct (begin_returns_and_keeps Mobject is_aligned_with copy
                align_data_and_family Animation_begin has_updaters
                lock_matching_data (Transform_create_target Mobject)
                (Transform_init "MoveToTarget" mob (Some l)) s s l vm vt
                eq_refl Hm Hl) as (a' & s' & E & _).
    exists a', s'. exact E.
Qed.

End TransformAnimation.

(** ** manimlib/animation/rotation.py *)

Module Rotation.
Import Python.

(** A numpy array of floats, as the list of its rows. *)
Abbreviation array := (list (list R)).

(** One member of a family: the names of its point-like data channels and
    its data, one array per channel. *)
Record member : Type := {
  pointlike_data_keys : list string;
  data : gmap string array;
}.

(** Modelled from the spec: [Mobject.has_points] is not among the sources.
    A node has "point data (ordered sequence of 3D coordinates)" (spec 3);
    it has points when that sequence, the channel ["point"], is not
    empty. *)
Definition has_points (m : member) : bool :=
  match data m !! "point"%string with
  | Some (_ :: _) => true
  | _ => false
  end.

(** [dst[:] = src] on numpy arrays: the rows of [src] are written into
    [dst]; a single row is broadcast; any other difference of length raises
    ValueError. *)
Definition assign_slice (dst src : array) : option array :=
  if decide (length dst = length src) then Some src
  else match src with
       | [row] => Some (replicate (length dst) row)
       | _ => None
       end.

(** [for key in sm1.pointlike_data_keys: sm1.data[key][:] = sm2.data[key]];
    a missing key raises. *)
Fixpoint assign_keys (keys : list string) (d1 d2 : gmap string array)
  : option (gmap string array) :=
  match keys with
  | [] => Some d1
  | key :: keys =>
      dst ← d1 !! key;
      src ← d2 !! key;
      new ← assign_slice dst src;
      assign_keys keys (<[key := new]> d1) d2
  end.

Definition restore_member (sm1 sm2 : member) : option member :=
  d ← assign_keys (pointlike_data_keys sm1) (data sm1) (data sm2);
  Some {| pointlike_data_keys := pointlike_data_keys sm1; data := d |}.

(** [family_members_with_points] *)
Definition family_members_with_points (family : list member) : list member :=
  filter (fun m => has_points m = true) family.

(** The loop over [zip(self.mobject.family_members_with_points(),
    self.starting_mobject.family_members_with_points())].  The first list
    holds the members of the mobject themselves, which the loop body
    mutates: the k-th member with points of the family is restored from the
    k-th element of [starting]; the members after the shorter list ends,
    and the members without points, are left as they are. *)
Fixpoint restore_points (family starting : list member)
  : option (list member) :=
  match family with
  | [] => Some []
  | sm1 :: family' =>
      if has_points sm1 then
        match starting with
        | [] => Some family
        | sm2 :: starting' =>
            sm1' ← restore_member sm1 sm2;
            rest ← restore_points family' starting';
            Some (sm1' :: rest)
        end
      else
        rest ← restore_points family' starting;
        Some (sm1 :: rest)
  end.

Section Rotating.

(** [Mobject.rotate], on the family of the mobject, and
    [Animation.time_spanned_alpha]; both are defined outside the sources at
    hand. *)
Variable rotate :
  R -> R * R * R -> option (R * R * R) -> option (R * R * R) ->
  list member -> list member.
Variable time_spanned_alpha : R -> R.

(** The attributes of a [Rotating]; [starting_mobject] is the family of the
    snapshot taken at [begin]. *)
Record Rotating : Type := {
  angle : R;
  axis : R * R * R;
  about_point : option (R * R * R);
  about_edge : option (R * R * R);
  rate_func : R -> R;
  starting_mobject : list member;
}.

(** [Rotating.interpolate_mobject]: the family of [self.mobject] after the
    call, or [None] when the restoring loop raises. *)
Definition interpolate_mobject (self : Rotating) (mobject : list member)
    (alpha : R) : option (list member) :=
  restored ←
    restore_points mobject
      (family_members_with_points (starting_mobject self));
  Some (rotate (rate_func self (time_spanned_alpha alpha) * angle self)
          (axis self) (about_point self) (about_edge self) restored).

(** One call per frame. *)
Fixpoint play (self : Rotating) (mobject : list member) (alphas : list R)
  : option (list member) :=
  match alphas with
  | [] => Some mobject
  | alpha :: rest =>
      mobject' ← interpolate_mobject self mobject alpha;
      play self mobject' rest
  end.

End Rotating.

(** Two members of the same shape: the same point-like channels, all of
    them present, and arrays of the same length in every channel. *)
Definition same_shape (m1 m2 : member) : Prop :=
  pointlike_data_keys m1 = pointlike_data_keys m2
  /\ (forall key, key ∈ pointlike_data_keys m2 -> is_Some (data m2 !! key))
  /\ (forall key, length <$> data m1 !! key = length <$> data m2 !! key).

(** What a method that works on the points of a mobject may change in a
    member: the arrays of the point-like channels of a member that has
    points, and not their lengths. *)
Definition same_but_points (m1 m2 : member) : Prop :=
  pointlike_data_keys m2 = pointlike_data_keys m1
  /\ (forall key, length <$> data m2 !! key = length <$> data m1 !! key)
  /\ (forall key, key ∉ pointlike_data_keys m1 ->
                  data m2 !! key = data m1 !! key)
  /\ (has_points m1 = false -> m2 = m1).

Lemma has_points_same_length (m1 m2 : member) :
  (forall key, length <$> data m1 !! key = length <$> data m2 !! key) ->
  has_points m1 = has_points m2.
Proof.
  intros H. specialize (H "point"%string). unfold has_points.
  destruct (data m1 !! "point"%string) as [[|? ?]|],
           (data m2 !! "point"%string) as [[|? ?]|];
    simpl in H; congruence.
Qed.

Lemma same_but_points_refl (m : member) : same_but_points m m.
Proof. repeat split. Qed.

Lemma same_but_points_trans (m1 m2 m3 : member) :
  same_but_points m1 m2 -> same_but_points m2 m3 -> same_but_points m1 m3.
Proof.
  intros (K1 & L1 & D1 & P1) (K2 & L2 & D2 & P2). repeat split.
  - congruence.
  - intros key. rewrite L2. apply L1.
  - intros key Hk. rewrite D2 by (rewrite K1; exact Hk). apply D1, Hk.
  - intros Hp. specialize (P1 Hp). subst m2. apply P2, Hp.
Qed.

Lemma same_shape_but_points (m sm m2 : member) :
  same_shape m sm -> same_but_points m m2 -> same_shape m2 sm.
Proof.
  intros (K & W & L) (K2 & L2 & _ & _). repeat split.
  - congruence.
  - exact W.
  - intros key. rewrite L2. apply L.
Qed.

Lemma assign_keys_same_shape (keys : list string) (d2 : gmap string array) :
  forall d1 : gmap string array,
  (forall key, key ∈ keys -> is_Some (d2 !! key)) ->
  (forall key, length <$> d1 !! key = length <$> d2 !! key) ->
  exists d,
    assign_keys keys d1 d2 = Some d
    /\ forall key,
         d !! key = if decide (key ∈ keys) then d2 !! key else d1 !! key.
Proof.
  induction keys as [|k keys IH]; intros d1 Hin Hlen.
  - exists d1. split; [reflexivity|]. intros key.
    destruct (decide (key ∈ [])) as [H|_]; [inversion H|reflexivity].
  - destruct (Hin k (list_elem_of_here _ _)) as [src Hsrc].
    pose proof (Hlen k) as Hk. rewrite Hsrc in Hk. simpl in Hk.
    destruct (d1 !! k) as [dst|] eqn:Hdst; [|discriminate].
    simpl in Hk. injection Hk as Hk.
    destruct (IH (<[k := src]> d1)) as (d & E & Hd).
    + intros key Hkey. apply Hin. apply list_elem_of_further, Hkey.
    + intros key. destruct (decide (k = key)) as [<-|Hne].
      * rewrite lookup_insert_eq, Hsrc. reflexivity.
      * rewrite lookup_insert_ne by exact Hne. apply Hlen.
    + exists d. split.
      * simpl. rewrite Hdst, Hsrc. simpl. unfold assign_slice.
        destruct (decide (length dst = length src)); [|contradiction].
        simpl. exact E.
      * intros key. rewrite Hd.
        destruct (decide (key ∈ keys)) as [Hkey|Hkey].
        -- rewrite decide_True by (apply list_elem_of_further, Hkey).
           reflexivity.
        -- destruct (decide (k = key)) as [<-|Hne].
           ++ rewrite decide_True by apply list_elem_of_here.
              rewrite lookup_insert_eq. symmetry. exact Hsrc.
           ++ rewrite lookup_insert_ne by exact Hne.
              rewrite decide_False; [reflexivity|].
              intros H. apply elem_of_cons in H as [->|H]; contradiction.
Qed.

(** Restoring a member from a snapshot of the same shape succeeds: the
    point-like channels are those of the snapshot, the others are kept. *)
Lemma restore_member_same_shape (m sm : member) :
  same_shape m sm ->
  exists m',
    restore_member m sm = Some m'
    /\ pointlike_data_keys m' = pointlike_data_keys m
    /\ forall key,
         data m' !! key
         = if decide (key ∈ pointlike_data_keys m) then data sm !! key
           else data m !! key.
Proof.
  intros (K & W & L).
  destruct (assign_keys_same_shape (pointlike_data_keys m) (data sm) (data m))
    as (d & E & Hd).
  - rewrite K. exact W.
  - exact L.
  - exists {| pointlike_data_keys := pointlike_data_keys m; data := d |}.
    unfold restore_member. rewrite E. simpl.
    split; [reflexivity|]. split; [reflexivity|exact Hd].
Qed.

Lemma restore_member_absorbs (m sm m2 : member) :
  same_shape m sm -> same_but_points m m2 ->
  restore_member m2 sm = restore_member m sm.
Proof.
  intros Hs Hf.
  destruct (restore_member_same_shape m sm Hs) as (m' & E & K & D).
  destruct (restore_member_same_shape m2 sm
              (same_shape_but_points m sm m2 Hs Hf)) as (m2' & E2 & K2 & D2).
  rewrite E, E2. f_equal.
  destruct Hf as (Kf & _ & Df & _).
  destruct m' as [k' d'], m2' as [k2' d2']. simpl in *.
  f_equal; [congruence|].
  apply map_eq. intros key. rewrite D, D2, Kf.
  destruct (decide (key ∈ pointlike_data_keys m)) as [|Hk]; [reflexivity|].
  apply Df, Hk.
Qed.

Lemma family_members_with_points_cons (m : member) (family : list member) :
  family_members_with_points (m :: family)
  = if has_points m then m :: family_members_with_points family
    else family_members_with_points family.
Proof.
  unfold family_members_with_points. rewrite filter_cons.
  destruct (has_points m); reflexivity.
Qed.

(** A member whose point-like channels are those of the snapshot. *)
Definition restored_from (m sm : member) : Prop :=
  has_points sm = true ->
  forall key, key ∈ pointlike_data_keys sm -> data m !! key = data sm !! key.

(** The restoring loop succeeds on a family of the shape of the snapshot;
    its result has that shape too, carries the points of the snapshot, and
    differs from the family in the point-like channels only. *)
Lemma restore_points_same_shape (family starting : list member) :
  Forall2 same_shape family starting ->
  exists restored,
    restore_points family (family_members_with_points starting)
    = Some restored
    /\ Forall2 same_shape restored starting
    /\ Forall2 same_but_points family restored
    /\ Forall2 restored_from restored starting.
Proof.
  induction 1 as [|m sm family starting Hs _ IH].
  - exists []. repeat split; constructor.
  - destruct IH as (rest & E & Hrs & Hrf & Hfrom).
    rewrite family_members_with_points_cons.
    pose proof (has_points_same_length m sm (proj2 (proj2 Hs))) as Hp.
    simpl. destruct (has_points m) eqn:Hpm; rewrite <- Hp.
    + destruct (restore_member_same_shape m sm Hs) as (m' & Em & K & D).
      rewrite Em. simpl. rewrite E. simpl.
      assert (Hlen : forall key,
                 length <$> data m' !! key = length <$> data sm !! key).
      { intros key. rewrite D.
        destruct (decide (key ∈ pointlike_data_keys m)); [reflexivity|].
        apply (proj2 (proj2 Hs)). }
      exists (m' :: rest). split; [reflexivity|]. split; [|split].
      * constructor; [|exact Hrs]. destruct Hs as (Ks & W & L).
        repeat split; [congruence|exact W|exact Hlen].
      * constructor; [|exact Hrf]. repeat split.
        -- exact K.
        -- intros key. rewrite Hlen. symmetry. apply (proj2 (proj2 Hs)).
        -- intros key Hk. rewrite D. rewrite decide_False by exact Hk.
           reflexivity.
        -- congruence.
      * constructor; [|exact Hfrom]. intros _ key Hk. rewrite D.
        rewrite decide_True; [reflexivity|].
        rewrite (proj1 Hs). exact Hk.
    + rewrite E. simpl. exists (m :: rest). split; [reflexivity|].
      split; [|split]; constructor; try assumption.
      * apply same_but_points_refl.
      * intros Hsm. congruence.
Qed.

(** What a points-only method has changed is overwritten by the loop. *)
Lemma restore_points_absorbs (family starting : list member) :
  Forall2 same_shape family starting ->
  forall family2,
    Forall2 same_but_points family family2 ->
    restore_points family2 (family_members_with_points starting)
    = restore_points family (family_members_with_points starting).
Proof.
  induction 1 as [|m sm family starting Hs _ IH]; intros family2 Hf.
  - inversion Hf. reflexivity.
  - inversion Hf as [|? m2 ? family2' Hm Hrest]; subst.
    rewrite family_members_with_points_cons.
    pose proof (has_points_same_length m sm (proj2 (proj2 Hs))) as Hp.
    pose proof (has_points_same_length m2 m (proj1 (proj2 Hm))) as Hp2.
    simpl. rewrite Hp2. destruct (has_points m) eqn:Hpm; rewrite <- Hp.
    + rewrite (restore_member_absorbs m sm m2 Hs Hm).
      rewrite (IH family2' Hrest). reflexivity.
    + rewrite (proj2 (proj2 (proj2 Hm)) Hpm).
      rewrite (IH family2' Hrest). reflexivity.
Qed.

Section RotatingProperties.

Variable rotate :
  R -> R * R * R -> option (R * R * R) -> option (R * R * R) ->
  list member -> list member.
Variable time_spanned_alpha : R -> R.

(** [Mobject.rotate] works on the points: it changes nothing but the
    arrays of the point-like channels of the members that have points. *)
Hypothesis rotate_points_only :
  forall theta ax ap ae family,
    Forall2 same_but_points family (rotate theta ax ap ae family).

Variable self : Rotating.

(** The family after a call at [alpha], given the restored family. *)
Definition rotated (restored : list member) (alpha : R) : list member :=
  rotate (rate_func self (time_spanned_alpha alpha) * angle self)
    (axis self) (about_point self) (about_edge self) restored.

Lemma interpolate_mobject_restored mobject restored alpha :
  restore_points mobject (family_members_with_points (starting_mobject self))
  = Some restored ->
  interpolate_mobject rotate time_spanned_alpha self mobject alpha
  = Some (rotated restored alpha).
Proof.
  intros E. unfold interpolate_mobject. rewrite E. reflexivity.
Qed.

(** Whatever frame was shown last, the restoring loop brings back the same
    family. *)
Lemma restore_points_rotated mobject restored alpha :
  Forall2 same_shape mobject (starting_mobject self) ->
  restore_points mobject (family_members_with_points (starting_mobject self))
  = Some restored ->
  Forall2 same_shape (rotated restored alpha) (starting_mobject self)
  /\ restore_points (rotated restored alpha)
       (family_members_with_points (starting_mobject self))
     = Some restored.
Proof.
  intros Hs E.
  destruct (restore_points_same_shape _ _ Hs) as (r & E' & Hrs & Hrf & _).
  rewrite E in E'. injection E' as <-.
  pose proof (rotate_points_only
                (rate_func self (time_spanned_alpha alpha) * angle self)
                (axis self) (about_point self) (about_edge self) restored)
    as Hrot.
  fold (rotated restored alpha) in Hrot.
  split.
  - clear E Hrf Hs. revert Hrot. generalize (rotated restored alpha).
    induction Hrs as [|m sm ms sms Hm _ IH]; intros l Hl.
    + inversion Hl. constructor.
    + inversion Hl as [|? m2 ? l' Hm2 Hl']; subst.
      constructor; [|apply IH, Hl'].
      exact (same_shape_but_points m sm m2 Hm Hm2).
  - rewrite (restore_points_absorbs _ _ Hrs _ Hrot).
    rewrite (restore_points_absorbs _ _ Hs _ Hrf). exact E.
Qed.

Lemma play_last mobject restored alphas alpha :
  Forall2 same_shape mobject (starting_mobject self) ->
  restore_points mobject (family_members_with_points (starting_mobject self))
  = Some restored ->
  play rotate time_spanned_alpha self mobject (alphas ++ [alpha])
  = Some (rotated restored alpha).
Proof.
  revert mobject. induction alphas as [|beta alphas IH]; intros mobject Hs E.
  - simpl. rewrite (interpolate_mobject_restored _ _ _ E). reflexivity.
  - simpl. rewrite (interpolate_mobject_restored _ _ _ E). simpl.
    destruct (restore_points_rotated mobject restored beta Hs E) as [Hs' E'].
    apply IH; assumption.
Qed.

(** C8.  On a mobject that has the shape of the starting snapshot, and
    with a [rotate] that works on the points only, the loop of
    [interpolate_mobject] succeeds and gives every member with points the
    point data of the snapshot.  The family after the call is the rotation
    of that restored family by
    [rate_func (time_spanned_alpha alpha) * angle]; calling again with the
    same [alpha] gives the same family again, and after any sequence of
    frames the family is the one a single call with the last [alpha] would
    have produced: no rotation is carried over from one frame to the
    next. *)
Theorem Rotating_interpolate_mobject_pure (mobject : list member) :
  Forall2 same_shape mobject (starting_mobject self) ->
  exists restored : list member,
    restore_points mobject
      (family_members_with_points (starting_mobject self)) = Some restored
    /\ Forall2 restored_from restored (starting_mobject self)
    /\ forall alpha : R,
         interpolate_mobject rotate time_spanned_alpha self mobject alpha
         = Some (rotated restored alpha)
         /\ interpolate_mobject rotate time_spanned_alpha self
              (rotated restored alpha) alpha
            = Some (rotated restored alpha)
         /\ forall alphas : list R,
              play rotate time_spanned_alpha self mobject (alphas ++ [alpha])
              = interpolate_mobject rotate time_spanned_alpha self
                  mobject alpha.
Proof.
  intros Hs.
  destruct (restore_points_same_shape _ _ Hs) as (restored & E & _ & _ & Hfrom).
  exists restored. split; [exact E|]. split; [exact Hfrom|].
  intros alpha. split; [apply interpolate_mobject_restored, E|]. split.
  - apply interpolate_mobject_restored.
    apply (restore_points_rotated mobject restored alpha Hs E).
  - intros alphas. rewrite (interpolate_mobject_restored _ _ _ E).
    apply play_last; assumption.
Qed.

End RotatingProperties.

(** An instance for evaluation: a rotation about the z axis through the
    origin, applied to the channel ["point"] of the members that have
    points. *)
Definition rot_z (theta : R) (row : list R) : list R :=
  match row with
  | [x; y; z] =>
      [x * cos theta - y * sin theta; x * sin theta + y * cos theta; z]
  | _ => row
  end.

Definition demo_rotate (theta : R) (ax : R * R * R)
    (ap ae : option (R * R * R)) (family : list member) : list member :=
  (fun m =>
     if has_points m && bool_decide ("point"%string ∈ pointlike_data_keys m)
     then {| pointlike_data_keys := pointlike_data_keys m;
             data := alter (fmap (rot_z theta)) "point"%string (data m) |}
     else m) <$> family.

Definition demo_family : list member :=
  [ {| pointlike_data_keys := ["point"%string];
       data := {[ "point"%string := [[1; 0; 0]; [0; 1; 0]] ]} |} ].

Definition demo_self : Rotating :=
  {| angle := TransformAnimation.TAU;
     axis := TransformAnimation.OUT;
     about_point := None; about_edge := None;
     rate_func := RateFunctions.linear;
     starting_mobject := demo_family |}.

Lemma demo_rotate_points_only theta ax ap ae family :
  Forall2 same_but_points family (demo_rotate theta ax ap ae family).
Proof.
  unfold demo_rotate. apply Forall2_fmap_r, Forall_Forall2_diag.
  apply Forall_forall. intros m _. unfold compose.
  destruct (has_points m
            && bool_decide ("point"%string ∈ pointlike_data_keys m)) eqn:C;
    [|apply same_but_points_refl].
  apply andb_prop in C as [Hp Hk]. apply bool_decide_eq_true in Hk.
  repeat split; simpl.
  - intros key. rewrite lookup_alter. case_decide; [subst|reflexivity].
    destruct (data m !! "point"%string); simpl; [|reflexivity].
    rewrite length_fmap. reflexivity.
  - intros key Hkey. rewrite lookup_alter_ne; [reflexivity|].
    intros <-. contradiction.
  - congruence.
Qed.

Lemma demo_family_same_shape : Forall2 same_shape demo_family demo_family.
Proof.
  repeat constructor.
  intros key Hkey. apply list_elem_of_singleton in Hkey as ->.
  eexists. apply lookup_singleton_eq.
Qed.

Lemma Rotating_interpolate_mobject_pure_witness :
  exists restored,
    restore_points demo_family (family_members_with_points demo_family)
    = Some restored
    /\ forall alpha alphas,
         play demo_rotate (fun a => a) demo_self demo_family
           (alphas ++ [alpha])
         = Some (rotated demo_rotate (fun a => a) demo_self restored alpha).
Proof.
  destruct (Rotating_interpolate_mobject_pure demo_rotate (fun a => a)
              demo_rotate_points_only demo_self demo_family
              demo_family_same_shape) as (restored & E & _ & H).
  exists restored. split; [exact E|]. intros alpha alphas.
  destruct (H alpha) as (E1 & _ & Hplay). rewrite Hplay. exact E1.
Defined.

(** *** The restoring loop on arbitrary families *)



Lemma assign_keys_raises (keys : list string) (d2 : gmap string array)
    (key : string) :
  forall d1 : gmap string array,
  key ∈ keys ->
  match d1 !! key, d2 !! key with
  | Some dst, Some src => assign_slice dst src = None
  | _, _ => True
  end ->
  assign_keys keys d1 d2 = None.
Proof.
  induction keys as [|k keys IH]; intros d1 Hin Hbad; [inversion Hin|].
  simpl.
  destruct (d1 !! k) as [dst|] eqn:Hdst; [|reflexivity]. simpl.
  destruct (d2 !! k) as [src|] eqn:Hsrc; [|reflexivity]. simpl.
  destruct (assign_slice dst src) as [new|] eqn:Hnew; [|reflexivity]. simpl.
  destruct (decide (key = k)) as [->|Hne].
  - rewrite Hdst, Hsrc in Hbad. congruence.
  - apply IH.
    + apply elem_of_cons in Hin as [?|?]; [contradiction|assumption].
    + rewrite lookup_insert_ne by congruence. exact Hbad.
Qed.



(** A member cannot be restored from a snapshot that lacks one of its
    point-like channels, or holds there an array of another number of rows
    that is not a single row. *)
Lemma restore_member_raises (m sm : member) (key : string) :
  key ∈ pointlike_data_keys m ->
  data m !! key = None
  \/ data sm !! key = None
  \/ (exists dst src,
        data m !! key = Some dst /\ data sm !! key = Some src
        /\ length dst <> length src /\ length src <> 1%nat) ->
  restore_member m sm = None.
Proof.
  intros Hkey Hbad.
  unfold restore_member. rewrite (assign_keys_raises _ _ key).
  - reflexivity.
  - exact Hkey.
  - destruct Hbad as [->|[H|(dst & src & -> & -> & Hlen & H1)]];
      [exact I| |].
    + rewrite H. destruct (data m !! key); exact I.
    + unfold assign_slice.
      destruct (decide (length dst = length src)); [contradiction|].
      destruct src as [|row [|? ?]]; simpl in *; congruence.
Qed.

(** X18.  The restoring loop does not paper over a snapshot of another
    shape.  Take any pair that the loop reaches, a member with points of
    the family and the member of the snapshot that [zip] puts next to it,
    wherever they stand.  If one of the member's point-like channels is
    missing in the member or in its snapshot, or holds an array of another
    number of rows than the snapshot's, the snapshot's not being a single
    row that numpy would broadcast, then the loop raises, and so does
    [interpolate_mobject] at every [alpha], before it rotates anything. *)
Theorem restore_points_shape_mismatch
    (family starting : list member) (m sm : member) (key : string) :
  (m, sm) ∈ zip (family_members_with_points family) starting ->
  key ∈ pointlike_data_keys m ->
  data m !! key = None
  \/ data sm !! key = None
  \/ (exists dst src,
        data m !! key = Some dst /\ data sm !! key = Some src
        /\ length dst <> length src /\ length src <> 1%nat) ->
  restore_points family starting = None
  /\ forall rotate time_spanned_alpha (self : Rotating) (alpha : R),
       family_members_with_points (starting_mobject self) = starting ->
       interpolate_mobject rotate time_spanned_alpha self family alpha = None.
Proof.
  intros Hin Hkey Hbad.
  pose proof (restore_member_raises m sm key Hkey Hbad) as E.
  assert (Hloop : restore_points family starting = None).
  { clear Hkey Hbad. revert starting Hin.
    induction family as [|a family IH]; intros starting Hin.
    - simpl in Hin. inversion Hin.
    - rewrite family_members_with_points_cons in Hin. simpl.
      destruct (has_points a) eqn:Hp.
      + destruct starting as [|s starting]; [inversion Hin|].
        simpl in Hin. apply elem_of_cons in Hin as [Hhd|Htl].
        * injection Hhd as <- <-. rewrite E. reflexivity.
        * rewrite (IH _ Htl). destruct (restore_member a s); reflexivity.
      + rewrite (IH _ Hin). reflexivity. }
  split; [exact Hloop|].
  intros rotate tsa self alpha Hst.
  unfold interpolate_mobject. rewrite Hst, Hloop. reflexivity.
Qed.

Definition demo_point_member (rows : array) : member :=
  {| pointlike_data_keys := ["point"%string];
     data := {[ "point"%string := rows ]} |}.

Lemma demo_point_member_has_points (row : list R) (rows : array) :
  has_points (demo_point_member (row :: rows)) = true.
Proof.
  unfold has_points, demo_point_member. simpl.
  rewrite lookup_singleton_eq. reflexivity.
Qed.

Lemma restore_points_shape_mismatch_witness :
  let family :=
    [demo_point_member [[1; 0; 0]];
     demo_point_member [[0; 0; 0]; [1; 1; 0]]] in
  let starting :=
    [demo_point_member [[1; 0; 0]];
     demo_point_member [[0; 0; 0]; [1; 1; 0]; [2; 0; 0]]] in
  restore_member (demo_point_member [[1; 0; 0]])
    (demo_point_member [[1; 0; 0]])
  = Some (demo_point_member [[1; 0; 0]])
  /\ restore_points family starting = None.
Proof.
  intros family starting. split.
  - unfold restore_member, demo_point_member. simpl.
    rewrite lookup_singleton_eq. simpl. unfold assign_slice. simpl.
    rewrite insert_singleton_eq. reflexivity.
  - refine (proj1 (restore_points_shape_mismatch family starting
                     (demo_point_member [[0; 0; 0]; [1; 1; 0]])
                     (demo_point_member [[0; 0; 0]; [1; 1; 0]; [2; 0; 0]])
                     "point"%string _ _ _)).
    + unfold family, starting.
      rewrite !family_members_with_points_cons.
      rewrite !demo_point_member_has_points. simpl.
      apply list_elem_of_further, list_elem_of_here.
    + simpl. apply list_elem_of_here.
    + right. right.
      exists [[0; 0; 0]; [1; 1; 0]], [[0; 0; 0]; [1; 1; 0]; [2; 0; 0]].
      unfold demo_point_member. simpl. rewrite !lookup_singleton_eq.
      split; [reflexivity|]. split; [reflexivity|].
      split; simpl; lia.
Defined.

End Rotation.

(** ** manimlib/animation/numbers.py *)

Module Numbers.
Import SimpleFunctions Bezier.

(** Modelled from the spec: [DecimalNumber] of [manimlib.mobject.numbers] is
    not among the sources.  It is the node that displays a number:
    [get_value] reads the number, [set_value] replaces it. *)
Record DecimalNumber : Type := { number : R }.

Definition get_value (d : DecimalNumber) : R := number d.
Definition set_value (d : DecimalNumber) (v : R) : DecimalNumber :=
  {| number := v |}.

Record ChangingDecimal : Type := {
  number_update_func : R -> R;
  mobject : DecimalNumber;
}.

Section ChangingDecimal.

(** [Animation.time_spanned_alpha], defined outside the sources at hand. *)
Variable time_spanned_alpha : R -> R.

(** [ChangingDecimal.interpolate_mobject]: the mobject after the call. *)
Definition interpolate_mobject (self : ChangingDecimal) (alpha : R)
  : DecimalNumber :=
  let true_alpha := time_spanned_alpha alpha in
  let new_value := number_update_func self true_alpha in
  set_value (mobject self) new_value.

(** [ChangeDecimalToValue.__init__] *)
Definition ChangeDecimalToValue_init (decimal_mob : DecimalNumber)
    (target_number : R) : ChangingDecimal :=
  let start_number := number decimal_mob in
  {| number_update_func := fun a => interpolate start_number target_number a;
     mobject := decimal_mob |}.

(** The first class statement for [CountInFrom]; the second one, below,
    rebinds the name, so this class is never the one a caller gets. *)
Definition CountInFrom_shadowed_init (decimal_mob : DecimalNumber)
    (target_number : R) : ChangingDecimal :=
  let start_number := number decimal_mob in
  {| number_update_func := fun a => interpolate start_number target_number a;
     mobject := decimal_mob |}.

(** [CountInFrom.__init__], the effective definition. *)
Definition CountInFrom_init (decimal_mob : DecimalNumber) (source_number : R)
  : ChangingDecimal :=
  let start_number := get_value decimal_mob in
  {| number_update_func :=
       fun a => interpolate source_number start_number (clip a 0 1);
     mobject := decimal_mob |}.

Definition CountInFrom_default_source_number : R := 0.

Lemma clip_unit (a : R) : 0 <= clip a 0 1 <= 1.
Proof.
  unfold clip. destruct (Rlt_dec a 0); [lra|].
  destruct (Rlt_dec 1 a); lra.
Qed.

Lemma clip_unit_id (a : R) : 0 <= a <= 1 -> clip a 0 1 = a.
Proof.
  intros H. unfold clip. destruct (Rlt_dec a 0); [lra|].
  destruct (Rlt_dec 1 a); lra.
Qed.

Lemma clip_unit_above (a : R) : 1 <= a -> clip a 0 1 = 1.
Proof.
  intros H. unfold clip. destruct (Rlt_dec a 0); [lra|].
  destruct (Rlt_dec 1 a); lra.
Qed.

Lemma interpolate_between (a b c : R) :
  0 <= c <= 1 -> Rmin a b <= interpolate a b c <= Rmax a b.
Proof.
  intros H. unfold interpolate, Rmin, Rmax.
  destruct (Rle_dec a b); nra.
Qed.

(** C10.  With [v0] the value of the mobject at construction, a call of
    [interpolate_mobject] sets the value to
    [interpolate source_number v0 (clip a 0 1)], where [a] is the progress
    handed to the update function, [time_spanned_alpha alpha], which is
    [alpha] itself when no time span restricts the animation.  The value
    lies between [source_number] and [v0] for every [alpha], also outside
    [0,1], and it is [v0] as soon as the progress reaches 1. *)
Theorem CountInFrom_interpolate_mobject
    (decimal_mob : DecimalNumber) (source_number alpha : R) :
  let v0 := get_value decimal_mob in
  let value :=
    get_value
      (interpolate_mobject (CountInFrom_init decimal_mob source_number) alpha)
  in
  value = interpolate source_number v0 (clip (time_spanned_alpha alpha) 0 1)
  /\ Rmin source_number v0 <= value <= Rmax source_number v0
  /\ (time_spanned_alpha alpha = alpha ->
      value = interpolate source_number v0 (clip alpha 0 1))
  /\ (1 <= time_spanned_alpha alpha -> value = v0).
Proof.
  intros v0 value. unfold value, interpolate_mobject. simpl. fold v0.
  split; [reflexivity|]. split; [|split].
  - apply interpolate_between, clip_unit.
  - intros ->. reflexivity.
  - intros H. rewrite clip_unit_above by exact H. apply interpolate_1.
Qed.

End ChangingDecimal.

Lemma CountInFrom_interpolate_mobject_witness :
  (fun a : R => a) 2 = 2
  /\ 1 <= (fun a : R => a) 2
  /\ get_value
       (interpolate_mobject (fun a => a)
          (CountInFrom_init {| number := 50 |} 25) 2)
     = 50.
Proof.
  split; [reflexivity|]. split; [lra|].
  apply (CountInFrom_interpolate_mobject (fun a => a) {| number := 50 |} 25 2).
  simpl. lra.
Defined.

(** X19.  [ChangeDecimalToValue] moves the value on the line from the
    start number to the target: it shows the start at progress 0 and the
    target at progress 1, and, the progress not being clipped, it runs past
    the target when the progress does.  On progress within [0,1] counting in
    from a source to the value of a mobject is the same as changing a
    mobject that shows the source to that value. *)
Theorem ChangeDecimalToValue_line
    (time_spanned_alpha : R -> R)
    (decimal_mob : DecimalNumber) (target_number alpha : R) :
  let start := number decimal_mob in
  let a := time_spanned_alpha alpha in
  let value :=
    get_value
      (interpolate_mobject time_spanned_alpha
         (ChangeDecimalToValue_init decimal_mob target_number) alpha) in
  value = start + a * (target_number - start)
  /\ (a = 0 -> value = start)
  /\ (a = 1 -> value = target_number)
  /\ (1 < a -> start < target_number -> target_number < value)
  /\ (0 <= a <= 1 ->
      get_value
        (interpolate_mobject time_spanned_alpha
           (CountInFrom_init {| number := target_number |} start) alpha)
      = value).
Proof.
  intros start a value.
  unfold value, interpolate_mobject, ChangeDecimalToValue_init,
    CountInFrom_init, get_value, set_value, interpolate.
  simpl. fold start. fold a.
  split; [lra|]. split; [intros ->; lra|]. split; [intros ->; lra|].
  split; [intros H1 H2; nra|].
  intros H. rewrite clip_unit_id by exact H. reflexivity.
Qed.

Lemma ChangeDecimalToValue_line_witness :
  1 < (fun a : R => a) 2 /\ 0 < 100
  /\ 100 < get_value
             (interpolate_mobject (fun a => a)
                (ChangeDecimalToValue_init {| number := 0 |} 100) 2).
Proof.
  assert (H1 : 1 < (fun a : R => a) 2) by lra.
  assert (H2 : 0 < 100) by lra.
  split; [exact H1|]. split; [exact H2|].
  exact (proj1 (proj2 (proj2 (proj2
           (ChangeDecimalToValue_line (fun a => a) {| number := 0 |} 100 2))))
           H1 H2).
Defined.

End Numbers.

(** ** manimlib/animation/fading.py *)

Module Fading.

Abbreviation Vect3 := (R * R * R)%type.

Definition ORIGIN : Vect3 := (0, 0, 0).

Definition vadd (p q : Vect3) : Vect3 :=
  let '(px, py, pz) := p in let '(qx, qy, qz) := q in
  (px + qx, py + qy, pz + qz).

Definition vsub (p q : Vect3) : Vect3 :=
  let '(px, py, pz) := p in let '(qx, qy, qz) := q in
  (px - qx, py - qy, pz - qz).

Definition vscale (k : R) (p : Vect3) : Vect3 :=
  let '(px, py, pz) := p in (k * px, k * py, k * pz).

(** Modelled from the spec: the class [Mobject] of
    [manimlib.mobject.mobject] is not among the sources.  A scene node has
    "point data (ordered sequence of 3D coordinates)" and style attributes,
    of which the opacity is the one a fade changes (spec 3). *)
Record Mobject : Type := {
  points : list Vect3;
  opacity : R;
}.

(** Modelled from the spec: [Mobject.copy], the "deep clone of a node" of
    spec 6.  A value has no identity, so the clone is the value. *)
Definition copy (m : Mobject) : Mobject := m.

(** Modelled from the spec: [Mobject.set_opacity], a "style setter" of
    spec 6. *)
Definition set_opacity (m : Mobject) (o : R) : Mobject :=
  {| points := points m; opacity := o |}.

(** Modelled from the spec: [Mobject.shift] moves every point by the
    vector. *)
Definition shift (m : Mobject) (v : Vect3) : Mobject :=
  {| points := (fun p => vadd p v) <$> points m; opacity := opacity m |}.

Definition lower (xs : list R) : R :=
  match xs with
  | [] => 0
  | x :: xs' => fold_left Rmin xs' x
  end.

Definition upper (xs : list R) : R :=
  match xs with
  | [] => 0
  | x :: xs' => fold_left Rmax xs' x
  end.

Definition xs_of (m : Mobject) : list R := (fun p => p.1.1) <$> points m.
Definition ys_of (m : Mobject) : list R := (fun p => p.1.2) <$> points m.
Definition zs_of (m : Mobject) : list R := (fun p => p.2) <$> points m.

(** Modelled from the spec: [Mobject.get_center], the "bounding-box /
    center query" of spec 6: the middle of the bounding box. *)
Definition get_center (m : Mobject) : Vect3 :=
  ((lower (xs_of m) + upper (xs_of m)) / 2,
   (lower (ys_of m) + upper (ys_of m)) / 2,
   (lower (zs_of m) + upper (zs_of m)) / 2).

(** The extent of the bounding box along each axis. *)
Definition get_size (m : Mobject) : Vect3 :=
  (upper (xs_of m) - lower (xs_of m),
   upper (ys_of m) - lower (ys_of m),
   upper (zs_of m) - lower (zs_of m)).

(** Modelled from the spec: [Mobject.scale] with its default arguments
    scales the node about its center; with the factor 0 the "size has
    scaled to 0" (spec 8). *)
Definition scale (m : Mobject) (scale_factor : R) : Mobject :=
  let c := get_center m in
  {| points := (fun p => vadd c (vscale scale_factor (vsub p c))) <$> points m;
     opacity := opacity m |}.

(** Modelled from the spec: [Mobject.interpolate] along the straight path,
    "p(alpha) = (1-alpha) * start + alpha * end" (spec 4.3), on the points
    taken pairwise and on the style. *)
Definition interpolate (start target : Mobject) (alpha : R) : Mobject :=
  {| points :=
       zip_with (fun p q => vadd (vscale (1 - alpha) p) (vscale alpha q))
         (points start) (points target);
     opacity := Bezier.interpolate (opacity start) (opacity target) alpha |}.

(** [Fade] and its attributes. *)
Record Fade : Type := {
  mobject : Mobject;
  shift_vect : Vect3;
  scale_factor : R;
}.

(** [Fade.__init__] *)
Definition Fade_init (mob : Mobject) (shift : Vect3) (scale : R) : Fade :=
  {| mobject := mob; shift_vect := shift; scale_factor := scale |}.

Definition Fade_default_scale : R := 1.

(** [FadeOut.__init__]: [shift] goes to [Fade.__init__] by position and
    [scale], one of the [**kwargs], by name. *)
Definition FadeOut_init (mob : Mobject) (shift : Vect3) (scale : R) : Fade :=
  Fade_init mob shift scale.

(** [FadeOut.create_target] *)
Definition FadeOut_create_target (self : Fade) : Mobject :=
  let result := copy (mobject self) in
  let result := set_opacity result 0 in
  let result := shift result (shift_vect self) in
  let result := scale result (scale_factor self) in
  result.

(** [FadeIn.create_target] *)
Definition FadeIn_create_target (self : Fade) : Mobject :=
  copy (mobject self).

(** The square of side 1 centred at the origin, fully opaque. *)
Definition unit_square : Mobject :=
  {| points := [(0.5, 0.5, 0); (-0.5, 0.5, 0); (-0.5, -0.5, 0); (0.5, -0.5, 0)];
     opacity := 1 |}.

Ltac bounds :=
  unfold get_center, get_size, xs_of, ys_of, zs_of, lower, upper; simpl;
  repeat match goal with
         | |- context [Rmin ?a ?b] =>
             first [rewrite (Rmin_left a b) by lra
                   |rewrite (Rmin_right a b) by lra]
         | |- context [Rmax ?a ?b] =>
             first [rewrite (Rmax_left a b) by lra
                   |rewrite (Rmax_right a b) by lra]
         end;
  repeat f_equal; lra.

Lemma unit_square_center : get_center unit_square = ORIGIN.
Proof. unfold ORIGIN. bounds. Qed.

Lemma unit_square_size : get_size unit_square = (1, 1, 0).
Proof. bounds. Qed.

Lemma unit_square_shifted :
  shift (set_opacity (copy unit_square) 0) (1, 0, 0)
  = {| points := [(1.5, 0.5, 0); (0.5, 0.5, 0); (0.5, -0.5, 0); (1.5, -0.5, 0)];
       opacity := 0 |}.
Proof. unfold shift. simpl. repeat f_equal; lra. Qed.

Lemma unit_square_target :
  FadeOut_create_target (FadeOut_init unit_square (1, 0, 0) 0)
  = {| points := [(1, 0, 0); (1, 0, 0); (1, 0, 0); (1, 0, 0)]; opacity := 0 |}.
Proof.
  unfold FadeOut_create_target, FadeOut_init, Fade_init. simpl.
  rewrite unit_square_shifted. unfold scale.
  assert (C : get_center
                {| points := [(1.5, 0.5, 0); (0.5, 0.5, 0);
                              (0.5, -0.5, 0); (1.5, -0.5, 0)];
                   opacity := 0 |} = (1, 0, 0)) by bounds.
  rewrite C. simpl. repeat f_equal; lra.
Qed.

(** C9.  For a fade-out of the unit square with [shift = (1,0,0)] and
    [scale = 0]: the target is the copy of the square with the opacity set
    to 0, then shifted, then scaled by 0 about its centre; its opacity is
    0, its centre is the centre of the square moved by [(1,0,0)], its size
    is 0; and the interpolation from the square to the target at
    [alpha = 1] is the target. *)
Theorem FadeOut_shift_scale_scenario :
  let anim := FadeOut_init unit_square (1, 0, 0) 0 in
  let target := FadeOut_create_target anim in
  target = scale (shift (set_opacity (copy unit_square) 0) (1, 0, 0)) 0
  /\ opacity target = 0
  /\ get_center target = vadd (get_center unit_square) (1, 0, 0)
  /\ get_center target = (1, 0, 0)
  /\ get_size target = (0, 0, 0)
  /\ interpolate unit_square target 1 = target.
Proof.
  intros anim target. unfold target, anim.
  split; [reflexivity|].
  rewrite unit_square_target, unit_square_center.
  split; [reflexivity|]. split; [unfold ORIGIN; bounds|].
  split; [bounds|]. split; [bounds|].
  unfold interpolate, Bezier.interpolate. simpl. repeat f_equal; lra.
Qed.

End Fading.

(** ** manimlib/animation/movement.py *)

Module Movement.
Import Fading.

(** [PhaseFlow] and its attributes; [last_alpha] is [None] as long as the
    attribute does not exist. *)
Record PhaseFlow : Type := {
  function : Vect3 -> Vect3;
  virtual_time : R;
  last_alpha : option R;
}.

(** [virtual_time or run_time]: [None] and 0 are both false. *)
Definition virtual_time_or (virtual_time : option R) (run_time : R) : R :=
  match virtual_time with
  | None => run_time
  | Some v => if Req_dec_T v 0 then run_time else v
  end.

(** [PhaseFlow.__init__] *)
Definition PhaseFlow_init (f : Vect3 -> Vect3) (virtual_time : option R)
    (run_time : R) : PhaseFlow :=
  {| function := f;
     virtual_time := virtual_time_or virtual_time run_time;
     last_alpha := None |}.

Definition PhaseFlow_default_run_time : R := 3.0.

Section PhaseFlow.

(** The mobject and [Mobject.apply_function], which is defined outside the
    sources at hand. *)
Variable Mobject : Type.
Variable apply_function : (Vect3 -> Vect3) -> Mobject -> Mobject.

(** [PhaseFlow.interpolate_mobject]: the animation and the mobject after
    the call. *)
Definition interpolate_mobject (self : PhaseFlow) (mobject : Mobject)
    (alpha : R) : PhaseFlow * Mobject :=
  let mobject :=
    match last_alpha self with
    | Some last =>
        let dt := virtual_time self * (alpha - last) in
        apply_function (fun p => vadd p (vscale dt (function self p))) mobject
    | None => mobject
    end in
  ({| function := function self; virtual_time := virtual_time self;
      last_alpha := Some alpha |}, mobject).

(** One call per frame. *)
Fixpoint play (self : PhaseFlow) (mobject : Mobject) (alphas : list R)
  : PhaseFlow * Mobject :=
  match alphas with
  | [] => (self, mobject)
  | alpha :: rest =>
      let '(self, mobject) := interpolate_mobject self mobject alpha in
      play self mobject rest
  end.

(** [apply_function] applies a function to the points of the mobject: it
    depends on the function through its values only, does nothing with the
    identity, and two applications are the application of the composed
    function. *)
Hypothesis apply_function_ext :
  forall f g m, (forall p, f p = g p) ->
                apply_function f m = apply_function g m.
Hypothesis apply_function_id :
  forall m, apply_function (fun p => p) m = m.
Hypothesis apply_function_compose :
  forall f g m,
    apply_function g (apply_function f m) = apply_function (fun p => g (f p)) m.

Lemma last_cons_default (l : list R) (x d : R) :
  List.last (x :: l) d = List.last l x.
Proof.
  revert x d. induction l as [|y l IH]; intros x d; [reflexivity|].
  change (List.last (x :: y :: l) d) with (List.last (y :: l) d).
  rewrite !IH. reflexivity.
Qed.

Lemma play_constant_field (v : Vect3) (T first : R) (m : Mobject) :
  forall (alphas : list R) (last : R),
  play {| function := fun _ => v; virtual_time := T; last_alpha := Some last |}
    (apply_function (fun p => vadd p (vscale (T * (last - first)) v)) m)
    alphas
  = ({| function := fun _ => v; virtual_time := T;
        last_alpha := Some (List.last alphas last) |},
     apply_function
       (fun p => vadd p (vscale (T * (List.last alphas last - first)) v)) m).
Proof.
  induction alphas as [|alpha rest IH]; intros last; [reflexivity|].
  cbn [play interpolate_mobject last_alpha virtual_time function].
  rewrite apply_function_compose.
  rewrite (apply_function_ext _
             (fun p => vadd p (vscale (T * (alpha - first)) v))).
  - rewrite IH, last_cons_default. reflexivity.
  - intros [[x y] z]. destruct v as [[vx vy] vz]. unfold vadd, vscale.
    f_equal; [f_equal|]; lra.
Qed.

(** X21.  The first frame of a [PhaseFlow] moves nothing: it only records
    its [alpha].  Along a constant field the frames add up: after any
    sequence of frames every point has moved by the field times the virtual
    time between the first and the last [alpha], however the frames in
    between were placed.  A virtual time of 0 is taken for "not given" and
    replaced by the run time. *)
Theorem PhaseFlow_frames_add_up
    (v : Vect3) (virtual_time' : option R) (run_time first : R)
    (rest : list R) (m : Mobject) :
  let self := PhaseFlow_init (fun _ => v) virtual_time' run_time in
  let T := virtual_time_or virtual_time' run_time in
  (forall f, snd (interpolate_mobject
                    (PhaseFlow_init f virtual_time' run_time) m first) = m)
  /\ snd (play self m (first :: rest))
     = apply_function
         (fun p => vadd p (vscale (T * (List.last rest first - first)) v)) m
  /\ (virtual_time' = Some 0 -> T = run_time).
Proof.
  intros self T. split; [reflexivity|]. split.
  - unfold self, PhaseFlow_init. fold T.
    cbn [play interpolate_mobject last_alpha virtual_time function].
    rewrite <- (apply_function_id m) at 1.
    rewrite (apply_function_ext _
               (fun p => vadd p (vscale (T * (first - first)) v))).
    + rewrite play_constant_field. reflexivity.
    + intros [[x y] z]. destruct v as [[vx vy] vz]. unfold vadd, vscale.
      f_equal; [f_equal|]; lra.
  - intros ->. unfold T, virtual_time_or.
    destruct (Req_dec_T 0 0); [reflexivity|lra].
Qed.

End PhaseFlow.

Lemma PhaseFlow_frames_add_up_witness :
  snd (play (list Vect3) (fun f m => f <$> m)
         (PhaseFlow_init (fun _ => (1, 0, 0)) None 3) [(0, 0, 0)]
         [0; 0.25; 1])
  = (fun p => vadd p (vscale (3 * (1 - 0)) (1, 0, 0))) <$> [(0, 0, 0)].
Proof.
  refine (proj1 (proj2
            (PhaseFlow_frames_add_up (list Vect3) (fun f m => f <$> m)
               _ _ _ (1, 0, 0) None 3 0 [0.25; 1] [(0, 0, 0)]))).
  - intros f g m H. apply list_fmap_ext. intros _ p _. apply H.
  - intros m. apply list_fmap_id.
  - intros f g m. rewrite <- list_fmap_compose. reflexivity.
Defined.

End Movement.
